(** * Broker ingress: configuration snapshot store and multi-topic decouple sink

    A shallow embedding of

    - [pkg/broker/config/cache.go]  (type [CachedTargets] and its accessors), and
    - [pkg/broker/ingress/multi_topic_decouple_sink.go]  (type
      [multiTopicDecoupleSink], its [Send] method and the helpers behind it).

    Go values are modelled as follows.

    - A pointer [*T] that the code compares with [nil] is an [option T].
    - A Go map read by key or ranged over is a [gmap]; reading a nil map
      behaves like reading an empty one, so both are [∅].  The order in
      which a [range] meets the entries of a map is chosen by the runtime
      and is a parameter ([MapRange]): every result holds for every order.
    - A function returning [(T, error)] returns [error + T]; a function
      returning [(T, bool)] returns [option T]; an [error] result that may be
      [nil] is an [option error].
    - A run-time panic is an explicit outcome ([Panic], [Panicked]).
    - The read/write mutex of the sink is not modelled: every method call is
      one atomic step of a sequential machine. *)

From stdpp Require Import gmap strings list fin_maps.

Open Scope string_scope.
Open Scope list_scope.

(** ** Package [config] *)

Module config.

(** Modelled from the spec: [BrokerKey] is declared elsewhere in the
    package.  It is the stable identifier of a broker, a namespace and a
    name, and it is comparable (it is the key type of the sink's registry). *)
Record BrokerKey := mkBrokerKey { namespace : string; name : string }.

(** Modelled from the spec: [TargetKey] and its method [ParentKey] are
    declared elsewhere in the package.  A [TargetKey] is a [BrokerKey] plus
    a target name. *)
Record TargetKey := mkTargetKey { parent : BrokerKey; target_name : string }.

Definition ParentKey (key : TargetKey) : BrokerKey := parent key.

#[global] Instance BrokerKey_eq_dec : EqDecision BrokerKey.
Proof. solve_decision. Defined.

#[global] Instance BrokerKey_countable : Countable BrokerKey.
Proof.
  refine (inj_countable' (fun k => (namespace k, name k))
                         (fun p => mkBrokerKey p.1 p.2) _).
  by intros [].
Defined.

(** Modelled from the spec: the generated message types [State], [Queue],
    [Target], [Broker] and [TargetsConfig] are declared elsewhere in the
    package.  [State] is the lifecycle state of a decouple queue. *)
Inductive State := State_UNKNOWN | State_CREATING | State_READY | State_FAILED.

#[global] Instance State_eq_dec : EqDecision State.
Proof. solve_decision. Defined.

(** Modelled from the spec: a decouple queue is a topic identifier (field
    [Topic]) and a lifecycle state (field [State]). *)
Record Queue := mkQueue { Queue_Topic : string; Queue_State : State }.

(** Modelled from the spec: a target carries filter attributes, opaque
    key/value matching rules; its destination plays no role here. *)
Record Target := mkTarget { FilterAttributes : gmap string string }.

(** Modelled from the spec: a broker owns a decouple queue and a mapping
    from target names to targets.  Map entries hold targets, never nil
    pointers. *)
Record Broker := mkBroker {
  DecoupleQueue : option Queue;          (* *Queue, may be nil *)
  Targets : gmap string Target           (* target name -> *Target *)
}.

(** Modelled from the spec: the snapshot is the full mapping from the
    persistence strings of broker keys to brokers.  Map entries hold
    brokers, never nil pointers. *)
Record TargetsConfig := mkTargetsConfig {
  Brokers : gmap string Broker           (* persistence string -> *Broker *)
}.

(** Outcome of a call that may panic. *)
Inductive fault (A : Type) : Type :=
| Ok (a : A)
| Panic.
Arguments Ok {A} a.
Arguments Panic {A}.

(** The dynamic value held by an [atomic.Value]: the nil interface until
    the first [Store], afterwards an interface value whose dynamic type is
    [*TargetsConfig] (the pointer itself may be nil). *)
Inductive iface :=
| iface_nil
| iface_TargetsConfig (p : option TargetsConfig).

(** [type CachedTargets struct { Value atomic.Value }] *)
Record CachedTargets := mkCachedTargets { Value : iface }.

(** The zero value [CachedTargets{}]: nothing has been stored. *)
Definition zero_CachedTargets : CachedTargets := {| Value := iface_nil |}.

(** [atomic.Value.Store] and [atomic.Value.Load]. *)
Definition atomic_Store (x : iface) (v : iface) : iface := x.
Definition atomic_Load (v : iface) : iface := v.

(** The single-result type assertion [x.( *TargetsConfig)]: it panics on
    the nil interface. *)
Definition assert_TargetsConfig (x : iface) : fault (option TargetsConfig) :=
  match x with
  | iface_nil => Panic
  | iface_TargetsConfig p => Ok p
  end.

(** [func (ct *CachedTargets) Store(t *TargetsConfig)] *)
Definition Store (t : option TargetsConfig) (ct : CachedTargets) : CachedTargets :=
  {| Value := atomic_Store (iface_TargetsConfig t) (Value ct) |}.

(** [func (ct *CachedTargets) Load() *TargetsConfig] *)
Definition Load (ct : CachedTargets) : fault (option TargetsConfig) :=
  assert_TargetsConfig (atomic_Load (Value ct)).

(** The order of a [range] over a map.  Go leaves it unspecified and
    varies it from one traversal to the next; [range_order site mp] is the
    choice of the runtime for the map [mp] ranged over at [site]: the
    entries of [mp], each once, in the order they are met.  The site tells
    the traversals of one call apart: [[]] is the [range] over the brokers,
    [[k]] the [range] over the targets of the broker filed under [k]. *)
Class MapRange := {
  range_order : forall {V : Type}, list string -> gmap string V -> list (string * V);
  range_order_perm : forall (V : Type) (site : list string) (mp : gmap string V),
      range_order site mp ≡ₚ map_to_list mp
}.

(** The inner loop of [RangeAllTargets]: visit the targets of one broker.
    The visitor [f] threads its captured variables as a state [S]; the
    boolean tells whether the traversal goes on. *)
Fixpoint range_targets {S : Type} (f : Target -> S -> S * bool)
         (ts : list Target) (s : S) : S * bool :=
  match ts with
  | [] => (s, true)
  | t :: ts' =>
      let '(s', c) := f t s in
      if c then range_targets f ts' s' else (s', false)
  end.

(** The outer loop of [RangeAllTargets]: a [return] in the inner loop
    leaves both loops. *)
Fixpoint range_brokers_targets `{MapRange} {S : Type} (f : Target -> S -> S * bool)
         (bs : list (string * Broker)) (s : S) : S * bool :=
  match bs with
  | [] => (s, true)
  | (k, b) :: bs' =>
      let '(s', c) := range_targets f (range_order [k] (Targets b)).*2 s in
      if c then range_brokers_targets f bs' s' else (s', false)
  end.

(** The loop of [RangeBrokers]. *)
Fixpoint range_brokers {S : Type} (f : Broker -> S -> S * bool)
         (bs : list Broker) (s : S) : S :=
  match bs with
  | [] => s
  | b :: bs' =>
      let '(s', c) := f b s in
      if c then range_brokers f bs' s' else s'
  end.

(** [func (ct *CachedTargets) RangeAllTargets(f func( *Target) bool)] *)
Definition RangeAllTargets `{MapRange} {S : Type} (f : Target -> S -> S * bool)
           (ct : CachedTargets) (s : S) : fault S :=
  match Load ct with
  | Panic => Panic
  | Ok None => Ok s
  | Ok (Some val) =>
      Ok (range_brokers_targets f (range_order [] (Brokers val)) s).1
  end.

(** [func (ct *CachedTargets) RangeBrokers(f func( *Broker) bool)] *)
Definition RangeBrokers `{MapRange} {S : Type} (f : Broker -> S -> S * bool)
           (ct : CachedTargets) (s : S) : fault S :=
  match Load ct with
  | Panic => Panic
  | Ok None => Ok s
  | Ok (Some val) => Ok (range_brokers f (range_order [] (Brokers val)).*2 s)
  end.

(** [BrokerKey.PersistenceString]: the canonical string under which a
    broker is filed in [TargetsConfig.Brokers].  The method is declared
    elsewhere in the package and is taken as a parameter: every result
    holds for any such function. *)
Class KeyFormat := { PersistenceString : BrokerKey -> string }.

(** [func (ct *CachedTargets) GetBrokerByKey(key *BrokerKey) ( *Broker, bool)].
    The test [val.Brokers == nil] is subsumed by the lookup: a nil map
    is [∅], and the lookup in it finds nothing. *)
Definition GetBrokerByKey `{KeyFormat} (key : BrokerKey) (ct : CachedTargets)
  : fault (option Broker) :=
  match Load ct with
  | Panic => Panic
  | Ok None => Ok None
  | Ok (Some val) => Ok (Brokers val !! PersistenceString key)
  end.

(** [func (ct *CachedTargets) GetTargetByKey(key *TargetKey) ( *Target, bool)] *)
Definition GetTargetByKey `{KeyFormat} (key : TargetKey) (ct : CachedTargets)
  : fault (option Target) :=
  match GetBrokerByKey (ParentKey key) ct with
  | Panic => Panic
  | Ok None => Ok None
  | Ok (Some broker) => Ok (Targets broker !! target_name key)
  end.

(** *** Vocabulary for the traversals *)

(** The brokers of a snapshot, one for each entry of its map. *)
Definition all_brokers (c : TargetsConfig) : list Broker :=
  (map_to_list (Brokers c)).*2.

(** The targets of a broker, one for each entry of its map. *)
Definition targets_of (b : Broker) : list Target :=
  (map_to_list (Targets b)).*2.

(** The targets of all brokers of a snapshot, one for each entry. *)
Definition all_targets (c : TargetsConfig) : list Target :=
  flat_map targets_of (all_brokers c).

(** The brokers of a snapshot in the order a traversal meets them. *)
Definition ranged_brokers `{MapRange} (c : TargetsConfig) : list Broker :=
  (range_order [] (Brokers c)).*2.

(** The targets of all brokers of a snapshot in the order
    [RangeAllTargets] meets them. *)
Definition ranged_targets `{MapRange} (c : TargetsConfig) : list Target :=
  flat_map (fun kb => (range_order [kb.1] (Targets kb.2)).*2)
           (range_order [] (Brokers c)).

(** The state a visitor leaves after one call. *)
Definition visit {A S : Type} (f : A -> S -> S * bool) (s : S) (a : A) : S :=
  (f a s).1.

(** The visitor lets the traversal go on after every element of [l],
    called in order from state [s]. *)
Fixpoint continues {A S : Type} (f : A -> S -> S * bool) (l : list A) (s : S) : bool :=
  match l with
  | [] => true
  | a :: l' => (f a s).2 && continues f l' (f a s).1
  end.

End config.

(** ** Package [pubsub] (the queue client, seen through the calls made on it) *)

Module pubsub.

(** A [*pubsub.Topic]: the address of the handle object and the topic
    identifier that was given to [Client.Topic]; the handle's name is
    [projects/<project>/topics/<topic_id>]. *)
Record Topic := mkTopic { ptr : nat; topic_id : string }.

(** The character ['/']. *)
Definition slash : Ascii.ascii := Ascii.ascii_of_nat 47.

(** The part of a string after its last ['/'], if it has one. *)
Fixpoint after_last_slash (s : string) : option string :=
  match s with
  | EmptyString => None
  | String c s' =>
      match after_last_slash s' with
      | Some r => Some r
      | None => if Ascii.eqb c slash then Some s' else None
      end
  end.

(** The part of a string after its last ['/']; the whole string when it
    has none. *)
Definition last_segment (s : string) : string :=
  default s (after_last_slash s).

(** [func (t *Topic) ID() string]: the part of the handle's name after
    the last ['/'].  The name ends in [/topics/<topic_id>], so this is the
    last segment of [topic_id]: [topic_id] itself, unless it contains a
    ['/']. *)
Definition ID (t : Topic) : string := last_segment (topic_id t).

(** The identifier contains no ['/']. *)
Definition slash_free (id : string) : Prop := after_last_slash id = None.

#[global] Instance Topic_eq_dec : EqDecision Topic.
Proof. solve_decision. Defined.

(** The calls the sink makes on the client and on its handles, in the
    order they are made. *)
Inductive call (Msg : Type) : Type :=
| NewTopic (t : Topic)               (* client.Topic(id) returned t *)
| Stop (t : Topic)                   (* t.Stop() *)
| Publish (t : Topic) (msg : Msg).   (* t.Publish(ctx, msg) *)
Arguments NewTopic {Msg} t.
Arguments Stop {Msg} t.
Arguments Publish {Msg} t msg.

(** A [*pubsub.Client]: the next free handle address and the calls made
    so far. *)
Record Client (Msg : Type) := mkClient { next : nat; calls : list (call Msg) }.
Arguments mkClient {Msg} next calls.
Arguments next {Msg} c.
Arguments calls {Msg} c.

(** [func (c *Client) Topic(id string) *Topic]: a new handle object. *)
Definition Client_Topic {Msg} (id : string) (c : Client Msg) : Topic * Client Msg :=
  let t := {| ptr := next c; topic_id := id |} in
  (t, {| next := S (next c); calls := calls c ++ [NewTopic t] |}).

(** [func (t *Topic) Stop()] *)
Definition Topic_Stop {Msg} (t : Topic) (c : Client Msg) : Client Msg :=
  {| next := next c; calls := calls c ++ [Stop t] |}.

(** The call [t.Publish(ctx, msg)], recorded on the client. *)
Definition Topic_Publish {Msg} (t : Topic) (msg : Msg) (c : Client Msg) : Client Msg :=
  {| next := next c; calls := calls c ++ [Publish t msg] |}.

Definition is_NewTopic {Msg} (c : call Msg) : bool :=
  match c with NewTopic _ => true | _ => false end.
Definition is_Stop {Msg} (c : call Msg) : bool :=
  match c with Stop _ => true | _ => false end.
Definition is_Publish {Msg} (c : call Msg) : bool :=
  match c with Publish _ _ => true | _ => false end.

(** Number of calls of one kind in a log. *)
Definition count {Msg} (kind : call Msg -> bool) (l : list (call Msg)) : nat :=
  length (List.filter kind l).

(** The call [c] is made on, or returns, the handle object [h]. *)
Definition touches {Msg} (h : Topic) (c : call Msg) : Prop :=
  match c with
  | NewTopic t | Stop t | Publish t _ => ptr t = ptr h
  end.

(** No call is made on a handle object after its [Stop], and the object
    is not handed out again. *)
Fixpoint no_use_after_stop {Msg} (l : list (call Msg)) : Prop :=
  match l with
  | [] => True
  | c :: l' =>
      match c with
      | Stop h => Forall (fun c' => ¬ touches h c') l'
      | _ => True
      end ∧ no_use_after_stop l'
  end.

End pubsub.

(** ** Package [ingress] *)

Module ingress.

Import config.

(** Modelled from the spec: the sentinel errors [ErrNotFound],
    [ErrIncomplete] and [ErrNotReady] are declared elsewhere in the package.
    The other constructors are the remaining Go [error] values the sink
    handles.

    [wrapError format broker err] is the value of
    [fmt.Errorf(format, broker, err)] for a format that ends in [%w]: it
    wraps [err].  [externalError] is an error produced by a collaborator
    (the event encoder, the queue service). *)
Inductive error :=
| ErrNotFound
| ErrIncomplete
| ErrNotReady
| wrapError (format : string) (broker : BrokerKey) (err : error)
| externalError (msg : string).

#[global] Instance error_eq_dec : EqDecision error.
Proof. solve_decision. Defined.

(** [errors.Is(err, target)]: [target] occurs on the unwrap chain of [err]. *)
Fixpoint errors_Is (err target : error) : bool :=
  if decide (err = target) then true
  else match err with
       | wrapError _ _ inner => errors_Is inner target
       | _ => false
       end.

(** The collaborators of the sink.  [eventFilterFunc] is the package
    variable of that name ([filter.PassFilter] unless stubbed);
    [WritePubSubMessage] encodes an event into a queue message or fails;
    [publish_Get] is the outcome of [topic.Publish(ctx, msg).Get(ctx)],
    which may depend on everything the client was asked before. *)
Class Collaborators := {
  Ctx : Type;
  Event : Type;
  Message : Type;
  eventFilterFunc : Ctx -> gmap string string -> Event -> bool;
  WritePubSubMessage : Ctx -> Event -> error + Message;
  publish_Get : list (pubsub.call Message) -> Ctx -> pubsub.Topic -> Message -> option error
}.

(** [func isEventFilteringEnabled() bool], over the process environment. *)
Definition isEventFilteringEnabled (Getenv : string -> string) : bool :=
  bool_decide (Getenv "ENABLE_INGRESS_EVENT_FILTERING" = "true").

Section Sink.

Context `{KF : KeyFormat} `{X : Collaborators} `{MR : MapRange}.

(** [type multiTopicDecoupleSink struct].  The field [publishSettings]
    is never read by the methods below and is left out. *)
Record multiTopicDecoupleSink := mkSink {
  pubsub : pubsub.Client Message;
  topics : gmap BrokerKey pubsub.Topic;
  brokerConfig : CachedTargets;
  enableEventFiltering : bool
}.

(** [func NewMultiTopicDecoupleSink(ctx, brokerConfig, client, publishSettings)] *)
Definition NewMultiTopicDecoupleSink (Getenv : string -> string)
           (brokerConfig : CachedTargets) (client : pubsub.Client Message)
  : multiTopicDecoupleSink :=
  {| pubsub := client;
     topics := ∅;
     brokerConfig := brokerConfig;
     enableEventFiltering := isEventFilteringEnabled Getenv |}.

(** A method call either returns a value or panics; both leave a sink. *)
Inductive outcome (A : Type) : Type :=
| Returned (a : A) (m : multiTopicDecoupleSink)
| Panicked (m : multiTopicDecoupleSink).

Arguments Returned {A} a m.
Arguments Panicked {A} m.

Definition M (A : Type) : Type := multiTopicDecoupleSink -> outcome A.

Definition ret {A} (a : A) : M A := fun m => Returned a m.

Definition bind {A B} (c : M A) (k : A -> M B) : M B :=
  fun m => match c m with
           | Returned a m' => k a m'
           | Panicked m' => Panicked m'
           end.

Notation "x <~ c ;; k" := (bind c (fun x => k))
  (at level 100, c at next level, right associativity).

(** A read accessor of the snapshot store, called on [m.brokerConfig]. *)
Definition on_brokerConfig {A} (read : CachedTargets -> fault A) : M A :=
  fun m => match read (brokerConfig m) with
           | Ok a => Returned a m
           | Panic => Panicked m
           end.

(** [m.pubsub.Topic(topicID)] *)
Definition pubsub_Topic (topicID : string) : M pubsub.Topic :=
  fun m =>
    let '(t, c) := pubsub.Client_Topic topicID (pubsub m) in
    Returned t {| pubsub := c; topics := topics m;
                  brokerConfig := brokerConfig m;
                  enableEventFiltering := enableEventFiltering m |}.

(** [topic.Stop()] *)
Definition Topic_Stop (topic : pubsub.Topic) : M unit :=
  fun m =>
    Returned tt {| pubsub := pubsub.Topic_Stop topic (pubsub m); topics := topics m;
                   brokerConfig := brokerConfig m;
                   enableEventFiltering := enableEventFiltering m |}.

(** [topic.Publish(ctx, msg).Get(ctx)]: the call is recorded and the
    queue service answers. *)
Definition Topic_Publish_Get (ctx : Ctx) (topic : pubsub.Topic) (msg : Message)
  : M (option error) :=
  fun m =>
    Returned (publish_Get (pubsub.calls (pubsub m)) ctx topic msg)
             {| pubsub := pubsub.Topic_Publish topic msg (pubsub m); topics := topics m;
                brokerConfig := brokerConfig m;
                enableEventFiltering := enableEventFiltering m |}.

(** [m.topics[*broker] = topic] *)
Definition set_topic (broker : BrokerKey) (topic : pubsub.Topic) : M unit :=
  fun m =>
    Returned tt {| pubsub := pubsub m; topics := <[broker := topic]> (topics m);
                   brokerConfig := brokerConfig m;
                   enableEventFiltering := enableEventFiltering m |}.

(** The map read [topic, ok := m.topics[*broker]]. *)
Definition read_topics (broker : BrokerKey) : M (option pubsub.Topic) :=
  fun m => Returned (topics m !! broker) m.

(** [func (m *multiTopicDecoupleSink) getExistingTopic(broker)]: the same
    read, under the read lock. *)
Definition getExistingTopic (broker : BrokerKey) : M (option pubsub.Topic) :=
  read_topics broker.

(** [func (m *multiTopicDecoupleSink) getTopicIDForBroker(ctx, broker)] *)
Definition getTopicIDForBroker (ctx : Ctx) (broker : BrokerKey) : M (error + string) :=
  r <~ on_brokerConfig (GetBrokerByKey broker) ;;
  match r with
  | None => ret (inl (wrapError "%q: %w" broker ErrNotFound))
  | Some brokerConfig =>
      match DecoupleQueue brokerConfig with
      | None => ret (inl (wrapError "decouple queue of %q: %w" broker ErrIncomplete))
      | Some q =>
          if decide (Queue_Topic q = "")
          then ret (inl (wrapError "decouple queue of %q: %w" broker ErrIncomplete))
          else if decide (Queue_State q ≠ State_READY)
          then ret (inl (wrapError "%q: %w" broker ErrNotReady))
          else ret (inr (Queue_Topic q))
      end
  end.

(** [func (m *multiTopicDecoupleSink) updateTopicForBroker(ctx, broker)] *)
Definition updateTopicForBroker (ctx : Ctx) (broker : BrokerKey)
  : M (error + pubsub.Topic) :=
  r <~ getTopicIDForBroker ctx broker ;;
  match r with
  | inl err => ret (inl err)
  | inr topicID =>
      let create : M (error + pubsub.Topic) :=
        (topic <~ pubsub_Topic topicID ;;
         _ <~ set_topic broker topic ;;
         ret (inr topic)) in
      cached <~ read_topics broker ;;
      match cached with
      | Some topic =>
          if decide (pubsub.ID topic = topicID)
          then ret (inr topic)
          else (_ <~ Topic_Stop topic ;; create)
      | None => create
      end
  end.

(** [func (m *multiTopicDecoupleSink) getTopicForBroker(ctx, broker)] *)
Definition getTopicForBroker (ctx : Ctx) (broker : BrokerKey)
  : M (error + pubsub.Topic) :=
  r <~ getTopicIDForBroker ctx broker ;;
  match r with
  | inl err => ret (inl err)
  | inr topicID =>
      cached <~ getExistingTopic broker ;;
      match cached with
      | Some topic =>
          if decide (pubsub.ID topic = topicID)
          then ret (inr topic)
          else updateTopicForBroker ctx broker
      | None => updateTopicForBroker ctx broker
      end
  end.

(** The closure passed to [RangeAllTargets] by [hasTrigger]; its state is
    the captured variable [hasTrigger]. *)
Definition hasTrigger_visit (ctx : Ctx) (event : Event)
           (target : Target) (hasTrigger : bool) : bool * bool :=
  if eventFilterFunc ctx (FilterAttributes target) event
  then (true, false)
  else (hasTrigger, true).

(** [func (m *multiTopicDecoupleSink) hasTrigger(ctx, event) bool] *)
Definition hasTrigger (ctx : Ctx) (event : Event) : M bool :=
  on_brokerConfig (fun ct => RangeAllTargets (hasTrigger_visit ctx event) ct false).

(** The field read [m.enableEventFiltering]. *)
Definition read_enableEventFiltering : M bool :=
  fun m => Returned (enableEventFiltering m) m.

(** [func (m *multiTopicDecoupleSink) Send(ctx, broker, event) protocol.Result].
    The right operand of [&&] is evaluated only when filtering is
    enabled.  Log and trace annotations are not modelled. *)
Definition Send (ctx : Ctx) (broker : BrokerKey) (event : Event) : M (option error) :=
  r <~ getTopicForBroker ctx broker ;;
  match r with
  | inl err => ret (Some err)
  | inr topic =>
      enabled <~ read_enableEventFiltering ;;
      drop <~ (if (enabled : bool)
               then (interested <~ hasTrigger ctx event ;; ret (negb interested))
               else ret false) ;;
      if (drop : bool) then ret None
      else match WritePubSubMessage ctx event with
           | inl err => ret (Some err)
           | inr msg => Topic_Publish_Get ctx topic msg
           end
  end.

(** *** Runs of the sink

    Between two calls of [Send] the control loop may publish a new
    snapshot with [Store] on the store the sink reads from. *)
Inductive step :=
| DoStore (t : option TargetsConfig)
| DoSend (ctx : Ctx) (broker : BrokerKey) (event : Event).

(** [brokerConfig.Store(t)], seen from the sink that shares the store. *)
Definition Store_brokerConfig (t : option TargetsConfig) : M unit :=
  fun m =>
    Returned tt {| pubsub := pubsub m; topics := topics m;
                   brokerConfig := Store t (brokerConfig m);
                   enableEventFiltering := enableEventFiltering m |}.

(** Run the steps in order and collect the results of the [Send]s. *)
Fixpoint run (steps : list step) : M (list (option error)) :=
  match steps with
  | [] => ret []
  | DoStore t :: steps' => _ <~ Store_brokerConfig t ;; run steps'
  | DoSend ctx broker event :: steps' =>
      r <~ Send ctx broker event ;;
      rs <~ run steps' ;;
      ret (r :: rs)
  end.

(** The sink a call leaves behind. *)
Definition final_sink {A} (o : outcome A) : multiTopicDecoupleSink :=
  match o with Returned _ m => m | Panicked m => m end.

(** *** Vocabulary of the statements *)

(** The broker filed under [broker] in snapshot [t], if any. *)
Definition broker_in (t : option TargetsConfig) (broker : BrokerKey) : option Broker :=
  match t with
  | None => None
  | Some c => Brokers c !! PersistenceString broker
  end.

(** The store holds a snapshot in which [broker] has a decouple queue
    with the non-empty topic identifier [id] in state READY. *)
Definition configured_topic (ct : CachedTargets) (broker : BrokerKey) (id : string) : Prop :=
  ∃ t b q, Value ct = iface_TargetsConfig t ∧ broker_in t broker = Some b ∧
           DecoupleQueue b = Some q ∧ Queue_Topic q = id ∧ id ≠ "" ∧
           Queue_State q = State_READY.

(** Some target of some broker of snapshot [t] passes the filter. *)
Definition interested_anywhere (ctx : Ctx) (event : Event) (t : option TargetsConfig) : Prop :=
  ∃ c k b n target, t = Some c ∧ Brokers c !! k = Some b ∧ Targets b !! n = Some target ∧
                    eventFilterFunc ctx (FilterAttributes target) event = true.

(** [c] is a call [Publish] on the handle [h]. *)
Definition publishes_to (h : pubsub.Topic) (c : pubsub.call Message) : Prop :=
  match c with
  | pubsub.Publish t _ => t = h
  | _ => False
  end.

(** Something was stored, and the topic of [broker] either does not
    resolve (the broker is missing, its queue has no identifier or is not
    READY) or resolves to [id]. *)
Definition only_topic (broker : BrokerKey) (id : string) (ct : CachedTargets) : Prop :=
  (∃ t, Value ct = iface_TargetsConfig t) ∧
  ∀ id', configured_topic ct broker id' → id' = id.

(** [only_topic] holds of the store [ct] the run starts with and of the
    store after every [Store] of the run: whenever the topic of [broker]
    resolves during the run, it resolves to [id]. *)
Fixpoint topic_unchanged (broker : BrokerKey) (id : string)
         (steps : list step) (ct : CachedTargets) : Prop :=
  only_topic broker id ct ∧
  match steps with
  | [] => True
  | DoStore t :: steps' => topic_unchanged broker id steps' (Store t ct)
  | DoSend _ _ _ :: steps' => topic_unchanged broker id steps' ct
  end.

(** Some [Send] of the run is addressed to [broker] at a moment when the
    store configures [broker] with [id]: the topic of [broker] is resolved
    at least once. *)
Fixpoint resolved_in (broker : BrokerKey) (id : string)
         (steps : list step) (ct : CachedTargets) : Prop :=
  match steps with
  | [] => False
  | DoStore t :: steps' => resolved_in broker id steps' (Store t ct)
  | DoSend _ b _ :: steps' =>
      (b = broker ∧ configured_topic ct broker id) ∨ resolved_in broker id steps' ct
  end.

(** The calls made on the queue client by those [Send]s of the run that
    are addressed to [broker]: for each of them, what it adds to the log. *)
Fixpoint calls_of (broker : BrokerKey) (steps : list step)
         (m : multiTopicDecoupleSink) : list (pubsub.call Message) :=
  match steps with
  | [] => []
  | DoStore t :: steps' => calls_of broker steps' (final_sink (Store_brokerConfig t m))
  | DoSend ctx b event :: steps' =>
      (if decide (b = broker)
       then drop (length (pubsub.calls (pubsub m)))
                 (pubsub.calls (pubsub (final_sink (Send ctx b event m))))
       else [])
      ++ match Send ctx b event m with
         | Returned _ m' => calls_of broker steps' m'
         | Panicked _ => []
         end
  end.

(** Handles in the registry were handed out by the client, and no
    handle object is filed under two keys. *)
Definition wf (m : multiTopicDecoupleSink) : Prop :=
  (∀ k h, topics m !! k = Some h → pubsub.ptr h < pubsub.next (pubsub m)) ∧
  (∀ k1 k2 h1 h2, topics m !! k1 = Some h1 → topics m !! k2 = Some h2 →
                  pubsub.ptr h1 = pubsub.ptr h2 → k1 = k2).

(** The handle object [h] was handed out by the client and is filed
    under no key of the registry. *)
Definition retired (h : pubsub.Topic) (m : multiTopicDecoupleSink) : Prop :=
  pubsub.ptr h < pubsub.next (pubsub m) ∧
  ∀ k h', topics m !! k = Some h' → pubsub.ptr h' ≠ pubsub.ptr h.

(** Every handle the client created is filed in the registry or was
    stopped: the handles created outnumber the handles stopped by the size
    of the registry. *)
Definition accounted (m : multiTopicDecoupleSink) : Prop :=
  pubsub.count pubsub.is_NewTopic (pubsub.calls (pubsub m)) =
  pubsub.count pubsub.is_Stop (pubsub.calls (pubsub m)) + size (topics m).

(** The log of a well-formed sink in which every stopped handle is retired
    and was not used after its [Stop]. *)
Definition stops_respected (m : multiTopicDecoupleSink) : Prop :=
  wf m ∧
  (∀ h, pubsub.Stop h ∈ pubsub.calls (pubsub m) → retired h m) ∧
  pubsub.no_use_after_stop (pubsub.calls (pubsub m)).

End Sink.

Arguments Returned {X A} a m.
Arguments Panicked {X A} m.

(** No [Send] of the step is addressed to the broker [k]. *)
Definition spares `{X : Collaborators} (k : config.BrokerKey) (st : step) : Prop :=
  match st with
  | DoStore _ => True
  | DoSend _ broker _ => broker ≠ k
  end.

End ingress.

(** ** A small deployment, used to run the definitions *)

Module example.

Import config ingress.

(** Keys are filed as [namespace/name]. *)
Definition slash_format : KeyFormat :=
  {| PersistenceString := fun k => namespace k +:+ "/" +:+ name k |}.

(** Events are reduced to their type; a target is interested when it has
    no [type] attribute or when that attribute is the type of the event.
    Encoding never fails and the queue service accepts every message. *)
Definition by_type : Collaborators :=
  {| Ctx := unit;
     Event := string;
     Message := string;
     eventFilterFunc := fun _ attrs event =>
       match attrs !! "type" with
       | None => true
       | Some ty => bool_decide (ty = event)
       end;
     WritePubSubMessage := fun _ event => inr event;
     publish_Get := fun _ _ _ _ => None |}.

(** The runtime meets the entries of every map in the order of
    [map_to_list]. *)
Definition listed_order : MapRange :=
  {| range_order := fun V _ mp => map_to_list mp;
     range_order_perm := fun V _ mp => reflexivity (map_to_list mp) |}.

(** The runtime meets the entries of every map in the opposite order. *)
Definition reversed_order : MapRange :=
  {| range_order := fun V _ mp => reverse (map_to_list mp);
     range_order_perm := fun V _ mp => reverse_Permutation (map_to_list mp) |}.

Definition b1 : BrokerKey := mkBrokerKey "ns" "b1".
Definition b2 : BrokerKey := mkBrokerKey "ns" "b2".

Definition ready_t1 : option Queue := Some (mkQueue "t1" State_READY).
Definition ready_t2 : option Queue := Some (mkQueue "t2" State_READY).

Definition only_orders : Target := mkTarget {[ "type" := "order" ]}.

Definition broker_with (q : option Queue) : Broker :=
  mkBroker q {[ "orders" := only_orders ]}.

(** One broker, [ns/b1], configured with the given queue. *)
Definition snapshot (q : option Queue) : TargetsConfig :=
  mkTargetsConfig {[ "ns/b1" := broker_with q ]}.

Definition stored (q : option Queue) : CachedTargets :=
  Store (Some (snapshot q)) zero_CachedTargets.

Definition Getenv (enable : string) (var : string) : string :=
  if decide (var = "ENABLE_INGRESS_EVENT_FILTERING") then enable else "".

(** A new sink over the snapshot, with filtering switched by [enable]. *)
Definition sink (enable : string) (q : option Queue)
  : @multiTopicDecoupleSink by_type :=
  @NewMultiTopicDecoupleSink by_type (Getenv enable) (stored q)
                             (pubsub.mkClient 0 []).

(** The sink after the first [Send] to [ns/b1] resolved topic [t1]. *)
Definition sink_with_t1 (enable : string) (q : option Queue)
  : @multiTopicDecoupleSink by_type :=
  {| pubsub := pubsub.mkClient 1 [pubsub.NewTopic (pubsub.mkTopic 0 "t1")];
     topics := {[ b1 := pubsub.mkTopic 0 "t1" ]};
     brokerConfig := stored q;
     enableEventFiltering := isEventFilteringEnabled (Getenv enable) |}.

Definition t1 : pubsub.Topic := pubsub.mkTopic 0 "t1".
Definition t2 : pubsub.Topic := pubsub.mkTopic 1 "t2".

(** Filtering off, nothing resolved yet. *)
Definition fresh_sink : @multiTopicDecoupleSink by_type := sink "false" ready_t1.

(** Filtering on, nothing resolved yet. *)
Definition filtering_sink : @multiTopicDecoupleSink by_type := sink "true" ready_t1.

(** The handle of [t1] is cached and the queue was reconfigured to [t2]. *)
Definition drifted_sink : @multiTopicDecoupleSink by_type :=
  sink_with_t1 "false" ready_t2.

(** The queue of [ns/b1] keeps the identifier [t1] but is not READY. *)
Definition creating_t1 : option Queue := Some (mkQueue "t1" State_CREATING).

(** [Send]s to [ns/b1] and to [ns/b2], while the queue of [ns/b1] leaves
    the state READY and comes back to it. *)
Definition mixed_steps : list (@step by_type) :=
  [@DoSend by_type tt b1 "order";
   @DoSend by_type tt b2 "order";
   @DoStore by_type (Some (snapshot creating_t1));
   @DoSend by_type tt b1 "order";
   @DoStore by_type (Some (snapshot ready_t1));
   @DoSend by_type tt b1 "invoice"].

(** Two [Send]s to [ns/b1]. *)
Definition two_sends : list (@step by_type) :=
  [@DoSend by_type tt b1 "order"; @DoSend by_type tt b1 "order"].

(** The queue of [ns/b1] has an identifier with a ['/'] in it. *)
Definition slash_queue : option Queue := Some (mkQueue "a/b" State_READY).

(** A new sink over that queue. *)
Definition slash_sink : @multiTopicDecoupleSink by_type := sink "false" slash_queue.


(** The handle of [t1] is cached and the queue was reconfigured to [t2],
    which is not READY yet. *)
Definition stale_not_ready_sink : @multiTopicDecoupleSink by_type :=
  sink_with_t1 "false" (Some (mkQueue "t2" State_CREATING)).

(** A handle made for [x/t2] is cached and the queue was reconfigured to
    [t2]. *)
Definition slash_drift_sink : @multiTopicDecoupleSink by_type :=
  {| pubsub := pubsub.mkClient 1 [pubsub.NewTopic (pubsub.mkTopic 0 "x/t2")];
     topics := {[ b1 := pubsub.mkTopic 0 "x/t2" ]};
     brokerConfig := stored ready_t2;
     enableEventFiltering := false |}.

(** A [Send], a reconfiguration of the queue to [t2], and a [Send]. *)
Definition reconfigure_steps : list (@step by_type) :=
  [@DoSend by_type tt b1 "order";
   @DoStore by_type (Some (snapshot ready_t2));
   @DoSend by_type tt b1 "order"].

(** Two brokers: [ns/b1] has no target at all, [ns/b2] has the target
    that is interested in orders. *)
Definition two_brokers : TargetsConfig :=
  mkTargetsConfig {[ "ns/b1" := mkBroker ready_t1 ∅;
                     "ns/b2" := broker_with ready_t2 ]}.

(** Filtering on, over the two brokers. *)
Definition cross_sink : @multiTopicDecoupleSink by_type :=
  @NewMultiTopicDecoupleSink by_type (Getenv "true")
    (Store (Some two_brokers) zero_CachedTargets) (pubsub.mkClient 0 []).

(** A sink over a store into which nothing was stored. *)
Definition unset_sink : @multiTopicDecoupleSink by_type :=
  @NewMultiTopicDecoupleSink by_type (Getenv "false") zero_CachedTargets
                             (pubsub.mkClient 0 []).

(** As [by_type], with an encoder that rejects every event. *)
Definition failing_encoder : Collaborators :=
  {| Ctx := unit;
     Event := string;
     Message := string;
     eventFilterFunc := fun _ _ _ => true;
     WritePubSubMessage := fun _ _ => inl (externalError "cannot encode");
     publish_Get := fun _ _ _ _ => None |}.

(** A new sink with the rejecting encoder, filtering off. *)
Definition unencodable_sink : @multiTopicDecoupleSink failing_encoder :=
  @NewMultiTopicDecoupleSink failing_encoder (Getenv "false") (stored ready_t1)
                             (pubsub.mkClient 0 []).

Definition no_filter : Target := mkTarget ∅.

(** One broker with two targets. *)
Definition two_targets : TargetsConfig :=
  mkTargetsConfig
    {[ "ns/b1" := mkBroker ready_t1 {[ "orders" := only_orders; "all" := no_filter ]} ]}.

(** A visitor that counts its calls and stops at the first. *)
Definition count_and_stop {A : Type} (_ : A) (n : nat) : nat * bool := (S n, false).

(** A visitor that remembers what it is called on and stops. *)
Definition keep_first {A : Type} (a : A) (_ : option A) : option A * bool :=
  (Some a, false).

(** A visitor that counts its calls and never stops. *)
Definition count_on {A : Type} (_ : A) (n : nat) : nat * bool := (S n, true).

End example.

(** ** Properties *)

Import config ingress.

(** *** The snapshot store *)

(** C1 (the code falls short of this claim).  On a store into which nothing
    was ever stored, [Load] panics: the type assertion meets the nil
    interface.  [GetBrokerByKey], [GetTargetByKey], [RangeAllTargets] and
    [RangeBrokers] start with [Load] and panic with it, so their tests for a
    nil snapshot are never reached in that state. *)
Theorem Load_before_Store_panics `{KF : KeyFormat} `{MR : MapRange} :
  Load zero_CachedTargets = Panic ∧
  (∀ key, GetBrokerByKey key zero_CachedTargets = Panic) ∧
  (∀ key, GetTargetByKey key zero_CachedTargets = Panic) ∧
  (∀ (S : Type) (f : Target → S → S * bool) (s : S),
      RangeAllTargets f zero_CachedTargets s = Panic) ∧
  (∀ (S : Type) (f : Broker → S → S * bool) (s : S),
      RangeBrokers f zero_CachedTargets s = Panic).
Proof. repeat split. Qed.

(** C8.  [Store s] followed by [Load] returns [s], whatever the store held
    before and also when [s] is the nil snapshot. *)
Theorem Store_then_Load (s : option TargetsConfig) (ct : CachedTargets) :
  Load (Store s ct) = Ok s.
Proof. destruct ct as [v]. unfold Load, Store. simpl. reflexivity. Qed.

(** *** Handle identifiers *)

Lemma after_last_slash_slash_free (s r : string) :
  pubsub.after_last_slash s = Some r → pubsub.slash_free r.
Proof.
  revert r. induction s as [|c s IH]; intros r; simpl; [done|].
  destruct (pubsub.after_last_slash s) as [r'|] eqn:Hs.
  - intros [= <-]. by apply IH.
  - destruct (Ascii.eqb c pubsub.slash); [|done]. by intros [= <-].
Qed.

(** The last segment of a string contains no ['/']. *)
Lemma last_segment_slash_free (s : string) :
  pubsub.slash_free (pubsub.last_segment s).
Proof.
  unfold pubsub.last_segment.
  destruct (pubsub.after_last_slash s) as [r|] eqn:Hs; simpl; [|done].
  by apply (after_last_slash_slash_free s).
Qed.

Lemma last_segment_id (id : string) :
  pubsub.slash_free id → pubsub.last_segment id = id.
Proof. unfold pubsub.slash_free, pubsub.last_segment. by intros ->. Qed.

(** What [ID] returns contains no ['/']: a handle whose [ID] is [id] tells
    that [id] is its own last segment. *)
Lemma ID_slash_free (h : pubsub.Topic) (id : string) :
  pubsub.ID h = id → pubsub.slash_free id.
Proof. intros <-. apply last_segment_slash_free. Qed.

(** A handle made for an identifier without ['/'] has it as its [ID]. *)
Lemma ID_mkTopic (n : nat) (id : string) :
  pubsub.slash_free id → pubsub.ID (pubsub.mkTopic n id) = id.
Proof. apply last_segment_id. Qed.

Lemma string_app_assoc (s1 s2 s3 : string) :
  (s1 +:+ s2) +:+ s3 = s1 +:+ (s2 +:+ s3).
Proof.
  induction s1 as [|c s1 IH]; [done|].
  change (String c ((s1 +:+ s2) +:+ s3) = String c (s1 +:+ (s2 +:+ s3))).
  by rewrite IH.
Qed.

(** [ID] is what is left of the handle's full name after its last ['/'],
    whatever the project is. *)
Lemma ID_of_name (project : string) (h : pubsub.Topic) :
  pubsub.last_segment ("projects/" +:+ project +:+ "/topics/" +:+ pubsub.topic_id h)
  = pubsub.ID h.
Proof.
  unfold pubsub.ID, pubsub.last_segment.
  assert (∀ pre s, pubsub.after_last_slash (pre +:+ String pubsub.slash s) =
                   Some (default s (pubsub.after_last_slash s))) as Hpre.
  { induction pre as [|c pre IH]; intros s.
    - change ("" +:+ String pubsub.slash s) with (String pubsub.slash s). simpl.
      by destruct (pubsub.after_last_slash s).
    - change (String c pre +:+ String pubsub.slash s)
        with (String c (pre +:+ String pubsub.slash s)).
      simpl. by rewrite IH. }
  assert ("projects/" +:+ project +:+ "/topics/" +:+ pubsub.topic_id h =
          ("projects/" +:+ project +:+ "/topics") +:+
            String pubsub.slash (pubsub.topic_id h)) as ->.
  { rewrite !string_app_assoc. reflexivity. }
  by rewrite Hpre.
Qed.

Section SinkProperties.

Context `{KF : KeyFormat} `{X : Collaborators} `{MR : MapRange}.

Implicit Types (m : multiTopicDecoupleSink) (ctx : Ctx) (broker : BrokerKey)
         (event : Event) (t : option TargetsConfig).

(** *** Reading the snapshot *)

Lemma GetBrokerByKey_stored broker ct t :
  Value ct = iface_TargetsConfig t →
  GetBrokerByKey broker ct = Ok (broker_in t broker).
Proof.
  intros Hv. unfold GetBrokerByKey, Load, atomic_Load. rewrite Hv.
  by destruct t.
Qed.

Lemma getTopicIDForBroker_stored ctx broker m t :
  Value (brokerConfig m) = iface_TargetsConfig t →
  getTopicIDForBroker ctx broker m =
  Returned
    match broker_in t broker with
    | None => inl (wrapError "%q: %w" broker ErrNotFound)
    | Some b =>
        match DecoupleQueue b with
        | None => inl (wrapError "decouple queue of %q: %w" broker ErrIncomplete)
        | Some q =>
            if decide (Queue_Topic q = "")
            then inl (wrapError "decouple queue of %q: %w" broker ErrIncomplete)
            else if decide (Queue_State q ≠ State_READY)
                 then inl (wrapError "%q: %w" broker ErrNotReady)
                 else inr (Queue_Topic q)
        end
    end m.
Proof.
  intros Hv. unfold getTopicIDForBroker, bind, on_brokerConfig.
  rewrite (GetBrokerByKey_stored _ _ _ Hv).
  destruct (broker_in t broker) as [b|]; [|done].
  destruct (DecoupleQueue b) as [q|]; [|done].
  repeat case_decide; done.
Qed.

Lemma getTopicIDForBroker_configured ctx broker m id :
  configured_topic (brokerConfig m) broker id →
  getTopicIDForBroker ctx broker m = Returned (inr id) m.
Proof.
  intros (t & b & q & Hv & Hb & Hq & Hid & Hne & Hst).
  rewrite (getTopicIDForBroker_stored _ _ _ _ Hv), Hb, Hq.
  subst id. rewrite decide_False by done.
  rewrite decide_False by (intros Hn; by apply Hn). done.
Qed.

(** A failed lookup of the topic identifier fails [Send] with the same
    error and leaves the sink as it was. *)
Lemma Send_unresolved ctx broker event m err :
  getTopicIDForBroker ctx broker m = Returned (inl err) m →
  Send ctx broker event m = Returned (Some err) m.
Proof.
  intros Hid. unfold Send, getTopicForBroker, bind. by rewrite Hid.
Qed.

(** *** Classified failures of [Send] *)

(** C2.  When the store holds a snapshot (possibly the nil snapshot) in
    which [broker] is not filed, [Send] returns an error that wraps
    [ErrNotFound] and no other sentinel, and the sink, with its registry
    of handles and the log of calls made on the queue client, is left
    exactly as it was: nothing is created, stopped or published. *)
Theorem Send_NotFound ctx broker event m t :
  Value (brokerConfig m) = iface_TargetsConfig t →
  broker_in t broker = None →
  ∃ err, Send ctx broker event m = Returned (Some err) m ∧
         errors_Is err ErrNotFound = true ∧
         errors_Is err ErrIncomplete = false ∧
         errors_Is err ErrNotReady = false.
Proof.
  intros Hv Hb. exists (wrapError "%q: %w" broker ErrNotFound).
  split; [|done].
  apply Send_unresolved.
  by rewrite (getTopicIDForBroker_stored _ _ _ _ Hv), Hb.
Qed.

(** C3.  When [broker] is filed in the snapshot and its [DecoupleQueue] is
    nil or has the empty string as [Topic], [Send] returns an error that
    wraps [ErrIncomplete], and the sink is left as it was: nothing is
    published. *)
Theorem Send_Incomplete ctx broker event m t b :
  Value (brokerConfig m) = iface_TargetsConfig t →
  broker_in t broker = Some b →
  (DecoupleQueue b = None ∨ ∃ q, DecoupleQueue b = Some q ∧ Queue_Topic q = "") →
  ∃ err, Send ctx broker event m = Returned (Some err) m ∧
         errors_Is err ErrIncomplete = true.
Proof.
  intros Hv Hb Hq. exists (wrapError "decouple queue of %q: %w" broker ErrIncomplete).
  split; [|done].
  apply Send_unresolved.
  rewrite (getTopicIDForBroker_stored _ _ _ _ Hv), Hb.
  destruct Hq as [-> | (q & -> & Hq)]; [done|].
  by rewrite decide_True.
Qed.

(** C4.  When [broker] is filed in the snapshot with a decouple queue
    whose [Topic] is not empty and whose [State] is not READY, [Send]
    returns an error that wraps [ErrNotReady], and the sink is left as it
    was: nothing is published. *)
Theorem Send_NotReady ctx broker event m t b q :
  Value (brokerConfig m) = iface_TargetsConfig t →
  broker_in t broker = Some b →
  DecoupleQueue b = Some q →
  Queue_Topic q ≠ "" →
  Queue_State q ≠ State_READY →
  ∃ err, Send ctx broker event m = Returned (Some err) m ∧
         errors_Is err ErrNotReady = true.
Proof.
  intros Hv Hb Hq Hid Hst. exists (wrapError "%q: %w" broker ErrNotReady).
  split; [|done].
  apply Send_unresolved.
  rewrite (getTopicIDForBroker_stored _ _ _ _ Hv), Hb, Hq.
  by rewrite decide_False, decide_True.
Qed.

(** C10.  When the decouple queue of a filed broker has the empty string
    as [Topic] and a [State] other than READY, the error of [Send] wraps
    [ErrIncomplete] and does not wrap [ErrNotReady]: the identifier is
    tested before the state.  The same holds when [DecoupleQueue] is nil
    and there is no state to read. *)
Theorem Send_Incomplete_before_NotReady ctx broker event m t b :
  Value (brokerConfig m) = iface_TargetsConfig t →
  broker_in t broker = Some b →
  (DecoupleQueue b = None ∨
   ∃ q, DecoupleQueue b = Some q ∧ Queue_Topic q = "" ∧ Queue_State q ≠ State_READY) →
  ∃ err, Send ctx broker event m = Returned (Some err) m ∧
         errors_Is err ErrIncomplete = true ∧
         errors_Is err ErrNotReady = false.
Proof.
  intros Hv Hb Hq. exists (wrapError "decouple queue of %q: %w" broker ErrIncomplete).
  split; [|done].
  apply Send_unresolved.
  rewrite (getTopicIDForBroker_stored _ _ _ _ Hv), Hb.
  destruct Hq as [-> | (q & -> & Hq & _)]; [done|].
  by rewrite decide_True.
Qed.

(** *** Resolving the topic handle of a broker *)

(** Fast path: the cached handle is bound to the configured identifier. *)
Lemma getTopicForBroker_cached ctx broker m id h :
  configured_topic (brokerConfig m) broker id →
  topics m !! broker = Some h →
  pubsub.ID h = id →
  getTopicForBroker ctx broker m = Returned (inr h) m.
Proof.
  intros Hc Hh Hid. unfold getTopicForBroker, bind.
  rewrite (getTopicIDForBroker_configured _ _ _ _ Hc).
  unfold getExistingTopic, read_topics. rewrite Hh. by rewrite decide_True.
Qed.

(** Slow path, no cached handle: one handle is created and filed. *)
Lemma getTopicForBroker_absent ctx broker m id :
  configured_topic (brokerConfig m) broker id →
  topics m !! broker = None →
  let h := pubsub.mkTopic (pubsub.next (pubsub m)) id in
  getTopicForBroker ctx broker m =
  Returned (inr h)
    {| pubsub := {| pubsub.next := S (pubsub.next (pubsub m));
                    pubsub.calls := pubsub.calls (pubsub m) ++ [pubsub.NewTopic h] |};
       topics := <[broker := h]> (topics m);
       brokerConfig := brokerConfig m;
       enableEventFiltering := enableEventFiltering m |}.
Proof.
  intros Hc Hh h. unfold getTopicForBroker, bind.
  rewrite (getTopicIDForBroker_configured _ _ _ _ Hc).
  unfold getExistingTopic, read_topics. rewrite Hh.
  unfold updateTopicForBroker, bind.
  rewrite (getTopicIDForBroker_configured _ _ _ _ Hc).
  unfold read_topics. rewrite Hh. done.
Qed.

(** Slow path, stale cached handle: it is stopped, then one handle is
    created and filed in its place. *)
Lemma getTopicForBroker_stale ctx broker m id h_old :
  configured_topic (brokerConfig m) broker id →
  topics m !! broker = Some h_old →
  pubsub.ID h_old ≠ id →
  let h := pubsub.mkTopic (pubsub.next (pubsub m)) id in
  getTopicForBroker ctx broker m =
  Returned (inr h)
    {| pubsub := {| pubsub.next := S (pubsub.next (pubsub m));
                    pubsub.calls := pubsub.calls (pubsub m)
                                      ++ [pubsub.Stop h_old; pubsub.NewTopic h] |};
       topics := <[broker := h]> (topics m);
       brokerConfig := brokerConfig m;
       enableEventFiltering := enableEventFiltering m |}.
Proof.
  intros Hc Hh Hid h. unfold getTopicForBroker, bind.
  rewrite (getTopicIDForBroker_configured _ _ _ _ Hc).
  unfold getExistingTopic, read_topics. rewrite Hh. rewrite decide_False by done.
  unfold updateTopicForBroker, bind.
  rewrite (getTopicIDForBroker_configured _ _ _ _ Hc).
  unfold read_topics. rewrite Hh. rewrite decide_False by done.
  unfold Topic_Stop, pubsub_Topic, set_topic. simpl.
  by rewrite <- app_assoc.
Qed.

(** *** The interest check *)

Lemma range_targets_hasTrigger ctx event ts (s : bool) :
  range_targets (hasTrigger_visit ctx event) ts s =
  if existsb (λ target, eventFilterFunc ctx (FilterAttributes target) event) ts
  then (true, false) else (s, true).
Proof.
  induction ts as [|target ts IH]; [done|]. simpl.
  unfold hasTrigger_visit at 1.
  destruct (eventFilterFunc ctx (FilterAttributes target) event); [done|].
  apply IH.
Qed.

Lemma range_brokers_targets_hasTrigger ctx event bs (s : bool) :
  range_brokers_targets (hasTrigger_visit ctx event) bs s =
  if existsb (λ kb, existsb (λ target, eventFilterFunc ctx (FilterAttributes target) event)
                            (range_order [kb.1] (Targets kb.2)).*2) bs
  then (true, false) else (s, true).
Proof.
  induction bs as [|[k b] bs IH]; [done|]. simpl.
  rewrite range_targets_hasTrigger.
  destruct (existsb _ (range_order [k] (Targets b)).*2); [done|].
  apply IH.
Qed.

(** Whatever the order, a traversal meets exactly the entries of the map. *)
Lemma elem_of_range_order {V} site (mp : gmap string V) (k : string) (v : V) :
  In (k, v) (range_order site mp) ↔ mp !! k = Some v.
Proof.
  rewrite <- list_elem_of_In, range_order_perm. apply elem_of_map_to_list.
Qed.

Lemma elem_of_map_values {V} site (mp : gmap string V) (v : V) :
  In v (range_order site mp).*2 ↔ ∃ k, mp !! k = Some v.
Proof.
  rewrite <- list_elem_of_In, list_elem_of_fmap. split.
  - intros ([k v'] & -> & Hin). exists k. simpl.
    by apply (elem_of_range_order site), list_elem_of_In.
  - intros (k & Hk). exists (k, v). split; [done|].
    by apply list_elem_of_In, elem_of_range_order.
Qed.

(** [hasTrigger] never changes the sink, and it answers [true] exactly
    when some target of some broker of the stored snapshot passes the
    filter. *)
Lemma hasTrigger_stored ctx event m t :
  Value (brokerConfig m) = iface_TargetsConfig t →
  ∃ r, hasTrigger ctx event m = Returned r m ∧
       (r = true ↔ interested_anywhere ctx event t).
Proof.
  intros Hv. unfold hasTrigger, on_brokerConfig, RangeAllTargets, Load, atomic_Load.
  rewrite Hv. simpl. destruct t as [c|].
  - rewrite range_brokers_targets_hasTrigger.
    eexists. split; [reflexivity|].
    destruct (existsb _ _) eqn:Hex; simpl.
    + split; [intros _|done].
      apply existsb_exists in Hex as ([k b] & Hb & Hex).
      apply existsb_exists in Hex as (target & Ht & Hf).
      apply elem_of_range_order in Hb.
      apply elem_of_map_values in Ht as (n & Hn).
      by exists c, k, b, n, target.
    + split; [done|]. intros (c' & k & b & n & target & [= <-] & Hk & Hn & Hf).
      rewrite <- Hex. apply existsb_exists. exists (k, b). split.
      * by apply elem_of_range_order.
      * apply existsb_exists. exists target. split; [|done].
        apply elem_of_map_values. by exists n.
  - exists false. split; [done|]. split; [done|].
    by intros (c & ? & ? & ? & ? & [=] & _).
Qed.

(** *** [Send] once the handle is resolved *)

Lemma add_no_calls m :
  {| pubsub := {| pubsub.next := pubsub.next (pubsub m);
                  pubsub.calls := pubsub.calls (pubsub m) ++ [] |};
     topics := topics m; brokerConfig := brokerConfig m;
     enableEventFiltering := enableEventFiltering m |} = m.
Proof. destruct m as [[n cs] tp bc en]. simpl. by rewrite app_nil_r. Qed.

(** After the handle is resolved, [Send] at most adds one [Publish] on
    that handle to the calls made so far; with filtering enabled and no
    interested target it adds none and reports success. *)
Lemma Send_resolved ctx broker event m topic m1 t :
  getTopicForBroker ctx broker m = Returned (inr topic) m1 →
  Value (brokerConfig m1) = iface_TargetsConfig t →
  ∃ r pubs,
    Send ctx broker event m =
    Returned r
      {| pubsub := {| pubsub.next := pubsub.next (pubsub m1);
                      pubsub.calls := pubsub.calls (pubsub m1) ++ pubs |};
         topics := topics m1; brokerConfig := brokerConfig m1;
         enableEventFiltering := enableEventFiltering m1 |} ∧
    Forall (publishes_to topic) pubs ∧
    (enableEventFiltering m1 = true → ¬ interested_anywhere ctx event t →
     r = None ∧ pubs = []).
Proof.
  intros Hres Hv. unfold Send, bind. rewrite Hres.
  unfold read_enableEventFiltering.
  assert (∃ r pubs,
    match WritePubSubMessage ctx event with
    | inl err => ret (Some err)
    | inr msg => Topic_Publish_Get ctx topic msg
    end m1 =
    Returned r
      {| pubsub := {| pubsub.next := pubsub.next (pubsub m1);
                      pubsub.calls := pubsub.calls (pubsub m1) ++ pubs |};
         topics := topics m1; brokerConfig := brokerConfig m1;
         enableEventFiltering := enableEventFiltering m1 |} ∧
    Forall (publishes_to topic) pubs) as (r & pubs & Hpub & Hto).
  { destruct (WritePubSubMessage ctx event) as [err|msg].
    - exists (Some err), []. by rewrite add_no_calls.
    - eexists _, [pubsub.Publish topic msg]. split; [reflexivity|].
      by apply Forall_singleton. }
  set (enabled := enableEventFiltering m1) at 1.
  assert (enabled = enableEventFiltering m1) as Hen by done.
  clearbody enabled. destruct enabled.
  - destruct (hasTrigger_stored ctx event m1 t Hv) as ([] & Hh & Hiff);
      rewrite Hh; simpl.
    + exists r, pubs. rewrite Hpub. split_and!; [done..|].
      intros _ Hno. destruct Hno. by apply Hiff.
    + exists None, []. by rewrite add_no_calls.
  - exists r, pubs. simpl. rewrite Hpub. split_and!; [done..|].
    intros Hen'. congruence.
Qed.

(** With a configured topic the handle always resolves; resolving
    touches neither the store nor the filtering switch, and it never
    publishes. *)
Lemma getTopicForBroker_configured ctx broker m id :
  configured_topic (brokerConfig m) broker id →
  ∃ topic m1 new,
    getTopicForBroker ctx broker m = Returned (inr topic) m1 ∧
    pubsub.ID topic = pubsub.last_segment id ∧
    topics m1 !! broker = Some topic ∧
    brokerConfig m1 = brokerConfig m ∧
    enableEventFiltering m1 = enableEventFiltering m ∧
    pubsub.calls (pubsub m1) = pubsub.calls (pubsub m) ++ new ∧
    pubsub.count pubsub.is_Publish new = 0.
Proof.
  intros Hc. destruct (topics m !! broker) as [h|] eqn:Hh.
  - destruct (decide (pubsub.ID h = id)) as [Hid|Hid].
    + exists h, m, []. rewrite (getTopicForBroker_cached _ _ _ _ _ Hc Hh Hid).
      rewrite app_nil_r, (last_segment_id id (ID_slash_free h id Hid)). done.
    + eexists _, _, _. rewrite (getTopicForBroker_stale _ _ _ _ _ Hc Hh Hid).
      split; [reflexivity|]. simpl. rewrite lookup_insert_eq. done.
  - eexists _, _, _. rewrite (getTopicForBroker_absent _ _ _ _ Hc Hh).
    split; [reflexivity|]. simpl. rewrite lookup_insert_eq. done.
Qed.

Lemma count_app (kind : pubsub.call Message → bool) l1 l2 :
  pubsub.count kind (l1 ++ l2) = pubsub.count kind l1 + pubsub.count kind l2.
Proof. unfold pubsub.count. by rewrite List.filter_app, length_app. Qed.

(** *** Interest filtering *)

(** C7 (as amended).  [hasTrigger] answers [true] exactly when some
    target of some broker of the stored snapshot passes the filter: the
    check ranges over the whole snapshot, not over the targets of the
    addressed broker.  With filtering enabled, a broker whose topic
    resolves, and no interested target anywhere, [Send] stops right after
    resolving the handle: it returns success and the number of [Publish]
    calls is what it was. *)
Theorem Send_drops_uninteresting ctx broker event m t id :
  Value (brokerConfig m) = iface_TargetsConfig t →
  (∃ r, hasTrigger ctx event m = Returned r m ∧
        (r = true ↔ interested_anywhere ctx event t)) ∧
  (enableEventFiltering m = true →
   configured_topic (brokerConfig m) broker id →
   ¬ interested_anywhere ctx event t →
   ∃ topic m',
     getTopicForBroker ctx broker m = Returned (inr topic) m' ∧
     Send ctx broker event m = Returned None m' ∧
     pubsub.count pubsub.is_Publish (pubsub.calls (pubsub m')) =
     pubsub.count pubsub.is_Publish (pubsub.calls (pubsub m))).
Proof.
  intros Hv. split; [by apply hasTrigger_stored|].
  intros Hen Hc Hno.
  destruct (getTopicForBroker_configured ctx broker m id Hc)
    as (topic & m1 & new & Hres & _ & _ & Hbc & Hen1 & Hcalls & Hcount).
  assert (Value (brokerConfig m1) = iface_TargetsConfig t) as Hv1 by by rewrite Hbc.
  destruct (Send_resolved ctx broker event m topic m1 t Hres Hv1)
    as (r & pubs & HSend & _ & Hdrop).
  destruct Hdrop as [-> ->]; [by rewrite Hen1|done|].
  exists topic, m1. rewrite add_no_calls in HSend.
  split_and!; [done..|].
  rewrite Hcalls, count_app, Hcount. lia.
Qed.

(** *** Reuse of the cached handle *)

Lemma publishes_no_lifecycle h (pubs : list (pubsub.call Message)) :
  Forall (publishes_to h) pubs →
  pubsub.count pubsub.is_NewTopic pubs = 0 ∧ pubsub.count pubsub.is_Stop pubs = 0.
Proof.
  induction 1 as [|c pubs Hc _ [IHn IHs]]; [done|].
  destruct c; done.
Qed.

(** With the cached handle bound to the configured identifier, [Send]
    changes nothing but the log of calls, to which it adds at most a
    [Publish] on that handle. *)
Lemma Send_cached ctx broker event m id h :
  configured_topic (brokerConfig m) broker id →
  topics m !! broker = Some h →
  pubsub.ID h = id →
  ∃ r pubs,
    Send ctx broker event m =
    Returned r
      {| pubsub := {| pubsub.next := pubsub.next (pubsub m);
                      pubsub.calls := pubsub.calls (pubsub m) ++ pubs |};
         topics := topics m; brokerConfig := brokerConfig m;
         enableEventFiltering := enableEventFiltering m |} ∧
    Forall (publishes_to h) pubs.
Proof.
  intros Hc Hh Hid. pose proof Hc as (t & _ & _ & Hv & _).
  destruct (Send_resolved ctx broker event m h m t
              (getTopicForBroker_cached _ _ _ _ _ Hc Hh Hid) Hv)
    as (r & pubs & HSend & Hto & _).
  by exists r, pubs.
Qed.

(** *** What any call may change *)

Lemma final_sink_bind {A B} (c : M A) (k : A → M B) m :
  final_sink (bind c k m) =
  match c m with
  | Returned a m' => final_sink (k a m')
  | Panicked m' => m'
  end.
Proof. unfold bind. by destruct (c m). Qed.

Lemma getTopicIDForBroker_frame ctx broker m :
  getTopicIDForBroker ctx broker m = Panicked m ∨
  ∃ r, getTopicIDForBroker ctx broker m = Returned r m.
Proof.
  unfold getTopicIDForBroker, bind, on_brokerConfig.
  destruct (GetBrokerByKey broker (brokerConfig m)) as [[b|]|]; simpl; eauto.
  destruct (DecoupleQueue b) as [q|]; simpl; eauto.
  repeat case_decide; simpl; eauto.
Qed.

(** Resolving a handle never touches the store or the filtering switch.
    It leaves the registry and the client's next address alone, or it
    files one new handle under [broker] and advances the address by one. *)
Lemma getTopicForBroker_frame ctx broker m :
  let m' := final_sink (getTopicForBroker ctx broker m) in
  brokerConfig m' = brokerConfig m ∧
  enableEventFiltering m' = enableEventFiltering m ∧
  ((topics m' = topics m ∧ pubsub.next (pubsub m') = pubsub.next (pubsub m)) ∨
   (∃ id, topics m' = <[broker := pubsub.mkTopic (pubsub.next (pubsub m)) id]> (topics m) ∧
          pubsub.next (pubsub m') = S (pubsub.next (pubsub m)))).
Proof.
  unfold getTopicForBroker, bind.
  destruct (getTopicIDForBroker_frame ctx broker m) as [HP|[[err|id] HR]].
  - rewrite HP. simpl. auto.
  - rewrite HR. simpl. auto.
  - rewrite HR. cbn beta iota. unfold getExistingTopic, read_topics.
    assert (∃ h_new m1,
               updateTopicForBroker ctx broker m = Returned (inr h_new) m1 ∧
               brokerConfig m1 = brokerConfig m ∧
               enableEventFiltering m1 = enableEventFiltering m ∧
               ((topics m1 = topics m ∧
                 pubsub.next (pubsub m1) = pubsub.next (pubsub m)) ∨
                (topics m1 = <[broker := pubsub.mkTopic (pubsub.next (pubsub m)) id]> (topics m) ∧
                 pubsub.next (pubsub m1) = S (pubsub.next (pubsub m)))))
      as (h_new & m1 & Hupd & ? & ? & Hcases).
    { unfold updateTopicForBroker, bind. rewrite HR. unfold read_topics.
      destruct (topics m !! broker) as [h|]; simpl;
        repeat case_decide; simpl; eauto 10. }
    cbn beta iota.
    destruct (topics m !! broker) as [h|]; simpl;
      repeat case_decide; simpl; rewrite ?Hupd; simpl; auto.
    all: split_and!; [done..|]; destruct Hcases as [?|[? ?]]; eauto.
Qed.

Lemma Send_frame ctx broker event m :
  let m' := final_sink (Send ctx broker event m) in
  brokerConfig m' = brokerConfig m ∧
  enableEventFiltering m' = enableEventFiltering m ∧
  ((topics m' = topics m ∧ pubsub.next (pubsub m') = pubsub.next (pubsub m)) ∨
   (∃ id, topics m' = <[broker := pubsub.mkTopic (pubsub.next (pubsub m)) id]> (topics m) ∧
          pubsub.next (pubsub m') = S (pubsub.next (pubsub m)))).
Proof.
  pose proof (getTopicForBroker_frame ctx broker m) as Hres.
  unfold Send. rewrite final_sink_bind.
  destruct (getTopicForBroker ctx broker m) as [[err|topic] m1|m1]; simpl in Hres;
    [done| |done].
  match goal with
  | |- context [final_sink ?o] =>
      assert (brokerConfig (final_sink o) = brokerConfig m1 ∧
              enableEventFiltering (final_sink o) = enableEventFiltering m1 ∧
              topics (final_sink o) = topics m1 ∧
              pubsub.next (pubsub (final_sink o)) = pubsub.next (pubsub m1))
        as (-> & -> & -> & ->); [|done]
  end.
  unfold bind, read_enableEventFiltering, hasTrigger, on_brokerConfig.
  destruct (enableEventFiltering m1) eqn:Hen; simpl.
  - destruct (RangeAllTargets _ _ _) as [[]|]; simpl; [| |done].
    + by destruct (WritePubSubMessage ctx event).
    + done.
  - by destruct (WritePubSubMessage ctx event).
Qed.

Lemma run_invariant (P : multiTopicDecoupleSink → Prop) :
  (∀ t m, P m → P (final_sink (Store_brokerConfig t m))) →
  (∀ ctx broker event m, P m → P (final_sink (Send ctx broker event m))) →
  ∀ steps m, P m → P (final_sink (run steps m)).
Proof.
  intros HStore HSend. induction steps as [|st steps IH]; intros m HP; [done|].
  destruct st as [t|ctx broker event]; simpl; rewrite final_sink_bind.
  - apply IH, (HStore t m HP).
  - specialize (HSend ctx broker event m HP).
    destruct (Send ctx broker event m) as [r m1|m1]; [|done].
    rewrite final_sink_bind. specialize (IH m1 HSend).
    by destruct (run steps m1).
Qed.

(** *** Well-formed registries *)

Lemma wf_New Getenv ct n calls :
  wf (NewMultiTopicDecoupleSink Getenv ct (pubsub.mkClient n calls)).
Proof. split; intros *; simpl; by rewrite lookup_empty. Qed.

Lemma wf_Send ctx broker event m :
  wf m → wf (final_sink (Send ctx broker event m)).
Proof.
  intros [Hlt Hinj].
  destruct (Send_frame ctx broker event m) as (_ & _ & [[Htp Hn]|(id & Htp & Hn)]);
    unfold wf; rewrite Htp, Hn; [done|].
  split.
  - intros k h. rewrite lookup_insert. case_decide.
    + intros [= <-]. simpl. lia.
    + intros Hk. specialize (Hlt k h Hk). lia.
  - intros k1 k2 h1 h2. rewrite !lookup_insert. repeat case_decide; subst.
    + done.
    + intros [= <-] Hk2 Hp. specialize (Hlt k2 h2 Hk2). simpl in Hp. lia.
    + intros Hk1 [= <-] Hp. specialize (Hlt k1 h1 Hk1). simpl in Hp. lia.
    + apply Hinj.
Qed.

(** Every sink reached from a well-formed one is well-formed. *)
Lemma wf_run steps m : wf m → wf (final_sink (run steps m)).
Proof.
  apply (run_invariant wf); [done|]. intros *. apply wf_Send.
Qed.

(** A retired handle object stays retired: the client never hands out
    the same address again. *)
Lemma retired_run h steps m : retired h m → retired h (final_sink (run steps m)).
Proof.
  apply (run_invariant (retired h)); [done|].
  intros ctx broker event m0 [Hlt Hno].
  destruct (Send_frame ctx broker event m0) as (_ & _ & [[Htp Hn]|(id & Htp & Hn)]);
    unfold retired; rewrite Htp, Hn; [done|].
  split; [lia|].
  intros k h'. rewrite lookup_insert. case_decide.
  - intros [= <-]. simpl. lia.
  - apply Hno.
Qed.

(** *** Drift of the configured topic *)

(** C6 (as amended).  Let the registry of a well-formed sink file the
    handle [h_old] under [broker] while [broker] is configured, in state
    READY, with a non-empty topic identifier [id] that differs from what
    [ID] returns for [h_old].  The next [Send] to [broker] returns; the
    calls it makes on the queue client are, in this order, one [Stop] of
    [h_old], one creation of a new handle [h] for [id], and then at most a
    [Publish] on [h]; the registry files [h] under [broker]; and after any
    further steps whatsoever no key of the registry holds the handle
    object [h_old]. *)
Theorem Send_replaces_stale_topic ctx broker event m id h_old :
  wf m →
  configured_topic (brokerConfig m) broker id →
  topics m !! broker = Some h_old →
  pubsub.ID h_old ≠ id →
  let h := pubsub.mkTopic (pubsub.next (pubsub m)) id in
  ∃ r pubs m',
    Send ctx broker event m = Returned r m' ∧
    pubsub.calls (pubsub m') =
      pubsub.calls (pubsub m) ++ [pubsub.Stop h_old; pubsub.NewTopic h] ++ pubs ∧
    Forall (publishes_to h) pubs ∧
    topics m' = <[broker := h]> (topics m) ∧
    ∀ steps k h',
      topics (final_sink (run steps m')) !! k = Some h' →
      pubsub.ptr h' ≠ pubsub.ptr h_old.
Proof.
  intros [Hlt Hinj] Hc Hh Hid h.
  pose proof Hc as (t & _ & _ & Hv & _).
  destruct (Send_resolved ctx broker event m h _ t
              (getTopicForBroker_stale _ _ _ _ _ Hc Hh Hid) Hv)
    as (r & pubs & HSend & Hto & _).
  simpl in HSend. eexists r, pubs, _. split; [exact HSend|]. simpl.
  split_and!; try done.
  - by rewrite <- app_assoc.
  - intros steps. apply retired_run. split; simpl.
    + specialize (Hlt broker h_old Hh). lia.
    + intros k h'. rewrite lookup_insert. case_decide.
      * intros [= <-]. simpl. specialize (Hlt broker h_old Hh). lia.
      * intros Hk Hp. by specialize (Hinj k broker h' h_old Hk Hh Hp).
Qed.

End SinkProperties.

(** ** The properties on the small deployment *)

Import example.

(** The scenario of the specification: the first [Send] to [ns/b1] opens
    [t1] and publishes there; once the queue is reconfigured to [t2], the
    next [Send] stops the [t1] handle, opens [t2] and publishes there. *)
Example scenario_reconfigure :
  pubsub.calls (pubsub (final_sink
    (@run slash_format by_type listed_order
          [@DoSend by_type tt b1 "order";
           @DoStore by_type (Some (snapshot ready_t2));
           @DoSend by_type tt b1 "order"]
          (sink "false" ready_t1)))) =
  [pubsub.NewTopic (pubsub.mkTopic 0 "t1");
   pubsub.Publish (pubsub.mkTopic 0 "t1") "order";
   pubsub.Stop (pubsub.mkTopic 0 "t1");
   pubsub.NewTopic (pubsub.mkTopic 1 "t2");
   pubsub.Publish (pubsub.mkTopic 1 "t2") "order"].
Proof. vm_compute. reflexivity. Qed.

Lemma example_configured id ct :
  id ≠ "" →
  @configured_topic slash_format
    (Store (Some (snapshot (Some (mkQueue id State_READY)))) ct) b1 id.
Proof.
  intros Hid.
  exists (Some (snapshot (Some (mkQueue id State_READY)))),
         (broker_with (Some (mkQueue id State_READY))), (mkQueue id State_READY).
  split_and!; done.
Qed.

(** No target of the deployment is interested in invoices. *)
Lemma example_no_interest q :
  ¬ @interested_anywhere by_type tt "invoice" (Some (snapshot q)).
Proof.
  intros (c & k & b & n & target & [= <-] & Hk & Hn & Hf).
  simpl in Hk. apply lookup_singleton_Some in Hk as [_ <-].
  simpl in Hn. apply lookup_singleton_Some in Hn as [_ <-].
  vm_compute in Hf. discriminate.
Qed.

Lemma Send_NotFound_witness :
  ∃ err, @Send slash_format by_type listed_order tt b2 "order" (sink "false" ready_t1) =
           Returned (Some err) (sink "false" ready_t1) ∧
         errors_Is err ErrNotFound = true ∧
         errors_Is err ErrIncomplete = false ∧
         errors_Is err ErrNotReady = false.
Proof.
  apply (@Send_NotFound slash_format by_type listed_order tt b2 "order" (sink "false" ready_t1)
                        (Some (snapshot ready_t1))).
  - reflexivity.
  - vm_compute. reflexivity.
Defined.

Lemma Send_Incomplete_witness :
  ∃ err, @Send slash_format by_type listed_order tt b1 "order" (sink "false" None) =
           Returned (Some err) (sink "false" None) ∧
         errors_Is err ErrIncomplete = true.
Proof.
  apply (@Send_Incomplete slash_format by_type listed_order tt b1 "order" (sink "false" None)
                          (Some (snapshot None)) (broker_with None)).
  - reflexivity.
  - vm_compute. reflexivity.
  - left. reflexivity.
Defined.

Lemma Send_NotReady_witness :
  ∃ err, @Send slash_format by_type listed_order tt b1 "order"
               (sink "false" (Some (mkQueue "t1" State_CREATING))) =
           Returned (Some err) (sink "false" (Some (mkQueue "t1" State_CREATING))) ∧
         errors_Is err ErrNotReady = true.
Proof.
  apply (@Send_NotReady slash_format by_type listed_order tt b1 "order"
           (sink "false" (Some (mkQueue "t1" State_CREATING)))
           (Some (snapshot (Some (mkQueue "t1" State_CREATING))))
           (broker_with (Some (mkQueue "t1" State_CREATING)))
           (mkQueue "t1" State_CREATING)).
  - reflexivity.
  - vm_compute. reflexivity.
  - reflexivity.
  - simpl. discriminate.
  - simpl. discriminate.
Defined.

Lemma Send_Incomplete_before_NotReady_witness :
  ∃ err, @Send slash_format by_type listed_order tt b1 "order"
               (sink "false" (Some (mkQueue "" State_CREATING))) =
           Returned (Some err) (sink "false" (Some (mkQueue "" State_CREATING))) ∧
         errors_Is err ErrIncomplete = true ∧
         errors_Is err ErrNotReady = false.
Proof.
  apply (@Send_Incomplete_before_NotReady slash_format by_type listed_order tt b1 "order"
           (sink "false" (Some (mkQueue "" State_CREATING)))
           (Some (snapshot (Some (mkQueue "" State_CREATING))))
           (broker_with (Some (mkQueue "" State_CREATING)))).
  - reflexivity.
  - vm_compute. reflexivity.
  - right. exists (mkQueue "" State_CREATING). simpl.
    split_and!; [reflexivity | reflexivity | discriminate].
Defined.

Lemma example_wf enable q : wf (sink_with_t1 enable q).
Proof.
  split; simpl.
  - intros k h [_ <-]%lookup_singleton_Some. simpl. lia.
  - intros k1 k2 h1 h2 [<- _]%lookup_singleton_Some [<- _]%lookup_singleton_Some _.
    reflexivity.
Qed.

Lemma Send_replaces_stale_topic_witness :
  ∃ r pubs m',
    @Send slash_format by_type listed_order tt b1 "order" drifted_sink = Returned r m' ∧
    pubsub.calls (pubsub m') =
      pubsub.calls (pubsub drifted_sink)
        ++ [pubsub.Stop t1; pubsub.NewTopic t2] ++ pubs ∧
    Forall (publishes_to t2) pubs ∧
    topics m' = <[b1 := t2]> (topics drifted_sink) ∧
    ∀ steps k h',
      topics (final_sink (@run slash_format by_type listed_order steps m')) !! k = Some h' →
      pubsub.ptr h' ≠ pubsub.ptr t1.
Proof.
  apply (@Send_replaces_stale_topic slash_format by_type listed_order tt b1 "order"
                                    drifted_sink "t2" t1).
  - apply example_wf.
  - by apply example_configured.
  - vm_compute. reflexivity.
  - simpl. discriminate.
Defined.

Lemma Send_drops_uninteresting_witness :
  (∃ r, @hasTrigger by_type listed_order tt "invoice" filtering_sink = Returned r filtering_sink ∧
        (r = true ↔
         @interested_anywhere by_type tt "invoice" (Some (snapshot ready_t1)))) ∧
  ∃ topic m',
    @getTopicForBroker slash_format by_type tt b1 filtering_sink =
      Returned (inr topic) m' ∧
    @Send slash_format by_type listed_order tt b1 "invoice" filtering_sink = Returned None m' ∧
    pubsub.count pubsub.is_Publish (pubsub.calls (pubsub m')) =
    pubsub.count pubsub.is_Publish (pubsub.calls (pubsub filtering_sink)).
Proof.
  destruct (@Send_drops_uninteresting slash_format by_type listed_order tt b1 "invoice"
              filtering_sink (Some (snapshot ready_t1)) "t1" eq_refl)
    as [Hcheck Hdrop].
  split; [exact Hcheck|].
  apply Hdrop.
  - vm_compute. reflexivity.
  - by apply example_configured.
  - apply example_no_interest.
Defined.

(** C7 (as first stated) does not hold without the proviso that the topic
    of the addressed broker resolves: with filtering enabled and no
    interested target anywhere, a [Send] to a broker that is not filed in
    the snapshot returns the [ErrNotFound] error, not success. *)
Lemma Send_uninteresting_unknown_broker :
  ¬ (∀ (KF : KeyFormat) (X : Collaborators) (MR : MapRange) (ctx : Ctx) (broker : BrokerKey)
       (event : Event) (m : multiTopicDecoupleSink) (t : option TargetsConfig),
        Value (brokerConfig m) = iface_TargetsConfig t →
        enableEventFiltering m = true →
        ¬ interested_anywhere ctx event t →
        ∃ m', Send ctx broker event m = Returned None m' ∧
              pubsub.count pubsub.is_Publish (pubsub.calls (pubsub m')) =
              pubsub.count pubsub.is_Publish (pubsub.calls (pubsub m))).
Proof.
  intros Hclaim.
  destruct (Hclaim slash_format by_type listed_order tt b2 "invoice" filtering_sink
                   (Some (snapshot ready_t1)) eq_refl eq_refl
                   (example_no_interest ready_t1)) as (m' & HSend & _).
  vm_compute in HSend. discriminate.
Qed.

(** ** Further properties of the snapshot store *)

Section TraversalProperties.

Context `{MR : MapRange} {S : Type}.

Lemma range_targets_app (f : Target → S → S * bool) l1 l2 s :
  range_targets f (l1 ++ l2) s =
  if (range_targets f l1 s).2
  then range_targets f l2 (range_targets f l1 s).1
  else ((range_targets f l1 s).1, false).
Proof.
  revert s. induction l1 as [|t l1 IH]; intros s; simpl; [done|].
  destruct (f t s) as [s' []]; simpl; [apply IH|done].
Qed.

(** The two nested loops of [RangeAllTargets] are one loop over the
    targets of all brokers, in the order the traversal meets them. *)
Lemma range_brokers_targets_flat (f : Target → S → S * bool) bs s :
  range_brokers_targets f bs s =
  range_targets f (flat_map (λ kb, (range_order [kb.1] (Targets kb.2)).*2) bs) s.
Proof.
  revert s. induction bs as [|[k b] bs IH]; intros s; simpl; [done|].
  rewrite range_targets_app.
  destruct (range_targets f (range_order [k] (Targets b)).*2 s) as [s' []]; simpl;
    [apply IH|done].
Qed.

Lemma continues_always {A} (f : A → S → S * bool) l s :
  (∀ a s', (f a s').2 = true) → continues f l s = true.
Proof.
  intros Hf. revert s. induction l as [|a l IH]; intros s; simpl; [done|].
  by rewrite Hf, IH.
Qed.

Lemma range_targets_continues (f : Target → S → S * bool) l s :
  continues f l s = true →
  range_targets f l s = (fold_left (visit f) l s, true).
Proof.
  revert s. induction l as [|t l IH]; intros s; simpl; [done|].
  intros [Hc Hl]%andb_true_iff. change (visit f s t) with (f t s).1.
  destruct (f t s) as [s' c]. simpl in *. subst c. by apply IH.
Qed.

Lemma range_targets_stops (f : Target → S → S * bool) l1 t l2 s :
  continues f l1 s = true →
  (f t (fold_left (visit f) l1 s)).2 = false →
  range_targets f (l1 ++ t :: l2) s = ((f t (fold_left (visit f) l1 s)).1, false).
Proof.
  intros Hl1 Hstop. rewrite range_targets_app, (range_targets_continues _ _ _ Hl1).
  simpl. destruct (f t _) as [s' c]. simpl in *. by subst c.
Qed.

Lemma range_brokers_continues (f : Broker → S → S * bool) l s :
  continues f l s = true →
  range_brokers f l s = fold_left (visit f) l s.
Proof.
  revert s. induction l as [|b l IH]; intros s; simpl; [done|].
  intros [Hc Hl]%andb_true_iff. change (visit f s b) with (f b s).1.
  destruct (f b s) as [s' c]. simpl in *. subst c. by apply IH.
Qed.

Lemma range_brokers_stops (f : Broker → S → S * bool) l1 b l2 s :
  continues f l1 s = true →
  (f b (fold_left (visit f) l1 s)).2 = false →
  range_brokers f (l1 ++ b :: l2) s = (f b (fold_left (visit f) l1 s)).1.
Proof.
  revert s. induction l1 as [|b1 l1 IH]; intros s; simpl.
  - intros _ Hstop. destruct (f b s) as [s' c]. simpl in *. by subst c.
  - intros [Hc Hl]%andb_true_iff Hstop.
    change (visit f s b1) with (f b1 s).1 in *.
    destruct (f b1 s) as [s' c]. simpl in *. subst c. by apply IH.
Qed.

End TraversalProperties.

Lemma elem_of_all_brokers (c : TargetsConfig) (b : Broker) :
  b ∈ all_brokers c ↔ ∃ k, Brokers c !! k = Some b.
Proof.
  unfold all_brokers. rewrite list_elem_of_fmap. split.
  - intros ([k b'] & -> & Hin). exists k. by apply elem_of_map_to_list.
  - intros (k & Hk). exists (k, b). split; [done|]. by apply elem_of_map_to_list.
Qed.

Lemma elem_of_targets_of (b : Broker) (t : Target) :
  t ∈ targets_of b ↔ ∃ n, Targets b !! n = Some t.
Proof.
  unfold targets_of. rewrite list_elem_of_fmap. split.
  - intros ([n t'] & -> & Hin). exists n. by apply elem_of_map_to_list.
  - intros (n & Hn). exists (n, t). split; [done|]. by apply elem_of_map_to_list.
Qed.

Lemma elem_of_all_targets (c : TargetsConfig) (t : Target) :
  t ∈ all_targets c ↔ ∃ k b n, Brokers c !! k = Some b ∧ Targets b !! n = Some t.
Proof.
  unfold all_targets. rewrite list_elem_of_In, in_flat_map. split.
  - intros (b & Hb & Ht). apply list_elem_of_In, elem_of_all_brokers in Hb as (k & Hk).
    apply list_elem_of_In, elem_of_targets_of in Ht as (n & Hn). by exists k, b, n.
  - intros (k & b & n & Hk & Hn). exists b. split; apply list_elem_of_In.
    + apply elem_of_all_brokers. by exists k.
    + apply elem_of_targets_of. by exists n.
Qed.

Lemma length_all_targets (c : TargetsConfig) :
  length (all_targets c) = sum_list ((λ b, size (Targets b)) <$> all_brokers c).
Proof.
  unfold all_targets. induction (all_brokers c) as [|b bs IH]; simpl; [done|].
  rewrite length_app, IH. f_equal.
  unfold targets_of. by rewrite length_fmap, length_map_to_list.
Qed.

(** Whatever the order, a traversal meets every broker once. *)
Lemma ranged_brokers_perm `{MR : MapRange} (c : TargetsConfig) :
  ranged_brokers c ≡ₚ all_brokers c.
Proof. unfold ranged_brokers, all_brokers. by rewrite range_order_perm. Qed.

Lemma flat_map_perm_pointwise {A B} (g1 g2 : A → list B) (l : list A) :
  (∀ a, g1 a ≡ₚ g2 a) → flat_map g1 l ≡ₚ flat_map g2 l.
Proof.
  intros Hg. induction l as [|a l IH]; simpl; [done|]. by rewrite Hg, IH.
Qed.

Lemma flat_map_snd {A B C} (g : B → list C) (l : list (A * B)) :
  flat_map (λ ab, g ab.2) l = flat_map g l.*2.
Proof. induction l as [|[a b] l IH]; simpl; [done|]. by rewrite IH. Qed.

(** Whatever the order, [RangeAllTargets] meets every target of every
    broker once. *)
Lemma ranged_targets_perm `{MR : MapRange} (c : TargetsConfig) :
  ranged_targets c ≡ₚ all_targets c.
Proof.
  unfold ranged_targets, all_targets, all_brokers.
  rewrite (flat_map_perm_pointwise _ (λ kb, targets_of kb.2)).
  - rewrite flat_map_snd. apply Permutation_flat_map.
    by rewrite range_order_perm.
  - intros [k b]. unfold targets_of. simpl. by rewrite range_order_perm.
Qed.

(** X1.  When the snapshot that was stored is the nil snapshot, or a
    snapshot without brokers, no accessor faults: the two lookups find
    nothing, and the two traversals return without calling the visitor. *)
Theorem accessors_without_brokers `{KF : KeyFormat} `{MR : MapRange} (ct : CachedTargets)
        (t : option TargetsConfig) (key : BrokerKey) (tkey : TargetKey)
        (S : Type) (f : Target → S → S * bool) (g : Broker → S → S * bool) (s : S) :
  t = None ∨ t = Some (mkTargetsConfig ∅) →
  GetBrokerByKey key (Store t ct) = Ok None ∧
  GetTargetByKey tkey (Store t ct) = Ok None ∧
  RangeAllTargets f (Store t ct) s = Ok s ∧
  RangeBrokers g (Store t ct) s = Ok s.
Proof.
  intros [-> | ->]; [done|].
  unfold GetTargetByKey, GetBrokerByKey, RangeAllTargets, RangeBrokers. simpl.
  rewrite lookup_empty.
  assert (range_order [] (∅ : gmap string Broker) = []) as ->.
  { apply Permutation_nil_r. by rewrite range_order_perm, map_to_list_empty. }
  done.
Qed.

(** X2.  Over a stored snapshot [GetTargetByKey] never faults and returns
    what the two lookups give: not found when the parent key of the target
    key is not filed (the nil snapshot included) or when the broker filed
    there does not file the target's name, and otherwise the target that
    broker files under the name.  The broker is the one [GetBrokerByKey]
    returns for the parent key. *)
Theorem GetTargetByKey_found `{KF : KeyFormat} (ct : CachedTargets)
        (t : option TargetsConfig) (tkey : TargetKey) :
  Value ct = iface_TargetsConfig t →
  GetTargetByKey tkey ct =
    Ok match t with
       | None => None
       | Some c =>
           match Brokers c !! PersistenceString (ParentKey tkey) with
           | None => None
           | Some b => Targets b !! target_name tkey
           end
       end ∧
  ∀ target,
    GetTargetByKey tkey ct = Ok (Some target) ↔
    ∃ c b, t = Some c ∧
           Brokers c !! PersistenceString (ParentKey tkey) = Some b ∧
           GetBrokerByKey (ParentKey tkey) ct = Ok (Some b) ∧
           Targets b !! target_name tkey = Some target.
Proof.
  intros Hv. unfold GetTargetByKey, GetBrokerByKey, Load, atomic_Load. rewrite Hv. simpl.
  destruct t as [c|]; simpl.
  - destruct (Brokers c !! PersistenceString (ParentKey tkey)) as [b|] eqn:Hb.
    + split; [done|]. intros target. split.
      * intros [= Ht]. by exists c, b.
      * intros (c' & b' & ? & ? & ? & Ht). simplify_eq. by rewrite Ht.
    + split; [done|]. intros target.
      split; [done|]. intros (c' & b' & ? & ? & ? & ?). simplify_eq.
  - split; [done|]. intros target.
    split; [done|]. intros (c' & b' & ? & ? & ? & ?). simplify_eq.
Qed.

(** X3.  Whatever order the runtime chooses, a visitor that never asks to
    stop is called by [RangeAllTargets] once on each target of each broker
    of the stored snapshot: the targets it is called on, in the order of
    the calls, are a rearrangement of the targets the brokers file, one for
    each entry of the brokers' target maps. *)
Theorem RangeAllTargets_visits_all `{MR : MapRange} (ct : CachedTargets)
        (c : TargetsConfig) (S : Type) (f : Target → S → S * bool) (s : S) :
  Value ct = iface_TargetsConfig (Some c) →
  (∀ t s', (f t s').2 = true) →
  RangeAllTargets f ct s = Ok (fold_left (visit f) (ranged_targets c) s) ∧
  ranged_targets c ≡ₚ all_targets c ∧
  (∀ t, t ∈ all_targets c ↔
        ∃ k b n, Brokers c !! k = Some b ∧ Targets b !! n = Some t) ∧
  length (all_targets c) = sum_list ((λ b, size (Targets b)) <$> all_brokers c).
Proof.
  intros Hv Hf. split_and!.
  - unfold RangeAllTargets, Load, atomic_Load. rewrite Hv. simpl.
    rewrite range_brokers_targets_flat. fold (ranged_targets c).
    by rewrite (range_targets_continues _ _ _ (continues_always f _ s Hf)).
  - apply ranged_targets_perm.
  - apply elem_of_all_targets.
  - apply length_all_targets.
Qed.

(** X4.  Whatever order the runtime chooses, once the visitor returns
    [false] [RangeAllTargets] returns: the targets the traversal would have
    met later, of the same broker or of later brokers, are not visited.  In
    particular a visitor that always asks to stop is called exactly once,
    on some target of the snapshot, and not at all when the snapshot has no
    target. *)
Theorem RangeAllTargets_stops_early `{MR : MapRange} (ct : CachedTargets)
        (c : TargetsConfig) (S : Type) (f : Target → S → S * bool) (s : S) :
  Value ct = iface_TargetsConfig (Some c) →
  (∀ before t after,
      ranged_targets c = before ++ t :: after →
      continues f before s = true →
      (f t (fold_left (visit f) before s)).2 = false →
      RangeAllTargets f ct s = Ok (f t (fold_left (visit f) before s)).1) ∧
  ((∀ t s', (f t s').2 = false) →
   (all_targets c = [] ∧ RangeAllTargets f ct s = Ok s) ∨
   (∃ t, t ∈ all_targets c ∧ RangeAllTargets f ct s = Ok (f t s).1)).
Proof.
  intros Hv.
  assert (RangeAllTargets f ct s = Ok (range_targets f (ranged_targets c) s).1) as ->.
  { unfold RangeAllTargets, Load, atomic_Load. rewrite Hv. simpl.
    by rewrite range_brokers_targets_flat. }
  split.
  - intros before t after -> Hc Hstop.
    by rewrite (range_targets_stops _ _ _ _ _ Hc Hstop).
  - intros Hf. pose proof (ranged_targets_perm c) as Hperm.
    destruct (ranged_targets c) as [|t l] eqn:Hl.
    + left. split; [|done]. symmetry in Hperm. by apply Permutation_nil_r in Hperm.
    + right. exists t. split.
      * rewrite <- Hperm. by left.
      * change (t :: l) with ([] ++ t :: l).
        by rewrite (range_targets_stops f [] t l s eq_refl (Hf t s)).
Qed.

(** X5.  Whatever order the runtime chooses, [RangeBrokers] calls a
    visitor that never asks to stop once on every broker of the stored
    snapshot, as many calls as the map of brokers has entries; and once a
    visitor returns [false], the brokers the traversal would have met later
    are not visited. *)
Theorem RangeBrokers_visits `{MR : MapRange} (ct : CachedTargets) (c : TargetsConfig)
        (S : Type) (f : Broker → S → S * bool) (s : S) :
  Value ct = iface_TargetsConfig (Some c) →
  ((∀ b s', (f b s').2 = true) →
   RangeBrokers f ct s = Ok (fold_left (visit f) (ranged_brokers c) s)) ∧
  (∀ before b after,
      ranged_brokers c = before ++ b :: after →
      continues f before s = true →
      (f b (fold_left (visit f) before s)).2 = false →
      RangeBrokers f ct s = Ok (f b (fold_left (visit f) before s)).1) ∧
  ranged_brokers c ≡ₚ all_brokers c ∧
  (∀ b, b ∈ all_brokers c ↔ ∃ k, Brokers c !! k = Some b) ∧
  length (all_brokers c) = size (Brokers c).
Proof.
  intros Hv. unfold RangeBrokers, Load, atomic_Load. rewrite Hv. simpl.
  fold (ranged_brokers c). split_and!.
  - intros Hf. by rewrite (range_brokers_continues _ _ _ (continues_always f _ s Hf)).
  - intros before b after -> Hc Hstop. by rewrite (range_brokers_stops _ _ _ _ _ Hc Hstop).
  - apply ranged_brokers_perm.
  - apply elem_of_all_brokers.
  - unfold all_brokers. by rewrite length_fmap, length_map_to_list.
Qed.

(** ** Further properties of the sink *)

Section MoreSinkProperties.

Context `{KF : KeyFormat} `{X : Collaborators} `{MR : MapRange}.

Implicit Types (m : multiTopicDecoupleSink) (ctx : Ctx) (broker : BrokerKey)
         (event : Event) (t : option TargetsConfig).

(** The topic identifier is returned only for a broker that is configured
    with it. *)
Lemma getTopicIDForBroker_inr ctx broker m id m' :
  getTopicIDForBroker ctx broker m = Returned (inr id) m' →
  configured_topic (brokerConfig m) broker id.
Proof.
  destruct (Value (brokerConfig m)) as [|t] eqn:Hv.
  - unfold getTopicIDForBroker, bind, on_brokerConfig, GetBrokerByKey, Load, atomic_Load.
    by rewrite Hv.
  - rewrite (getTopicIDForBroker_stored _ _ _ _ Hv).
    destruct (broker_in t broker) as [b|] eqn:Hb; [|done].
    destruct (DecoupleQueue b) as [q|] eqn:Hq; [|done].
    repeat case_decide; try done. intros [= <- _].
    exists t, b, q. split_and!; done.
Qed.

Lemma Send_panics ctx broker event m :
  getTopicIDForBroker ctx broker m = Panicked m →
  Send ctx broker event m = Panicked m.
Proof. intros HP. unfold Send, getTopicForBroker, bind. by rewrite HP. Qed.

(** What [Send] does once the handle is resolved, case by case. *)
Lemma Send_resolved_cases ctx broker event m topic m1 t :
  getTopicForBroker ctx broker m = Returned (inr topic) m1 →
  Value (brokerConfig m1) = iface_TargetsConfig t →
  ∃ r, hasTrigger ctx event m1 = Returned r m1 ∧
       (r = true ↔ interested_anywhere ctx event t) ∧
       Send ctx broker event m =
       if enableEventFiltering m1 && negb r then Returned None m1
       else match WritePubSubMessage ctx event with
            | inl err => Returned (Some err) m1
            | inr msg =>
                Returned (publish_Get (pubsub.calls (pubsub m1)) ctx topic msg)
                  {| pubsub := {| pubsub.next := pubsub.next (pubsub m1);
                                  pubsub.calls := pubsub.calls (pubsub m1)
                                                    ++ [pubsub.Publish topic msg] |};
                     topics := topics m1; brokerConfig := brokerConfig m1;
                     enableEventFiltering := enableEventFiltering m1 |}
            end.
Proof.
  intros Hres Hv.
  destruct (hasTrigger_stored ctx event m1 t Hv) as (r & Hh & Hiff).
  exists r. split_and!; [done..|].
  unfold Send, bind. rewrite Hres. unfold read_enableEventFiltering.
  set (enabled := enableEventFiltering m1) at 1 2.
  clearbody enabled. destruct enabled; simpl.
  - rewrite Hh. destruct r; simpl; [|done].
    by destruct (WritePubSubMessage ctx event).
  - by destruct (WritePubSubMessage ctx event).
Qed.

(** A configured broker whose event is not dropped by the filter: the
    handle resolves without a publish, and [Send] goes on to the encoder. *)
Lemma Send_not_dropped ctx broker event m id :
  configured_topic (brokerConfig m) broker id →
  (enableEventFiltering m = false ∨
   ∃ t, Value (brokerConfig m) = iface_TargetsConfig t ∧ interested_anywhere ctx event t) →
  ∃ topic m1 new,
    getTopicForBroker ctx broker m = Returned (inr topic) m1 ∧
    pubsub.ID topic = pubsub.last_segment id ∧
    topics m1 !! broker = Some topic ∧
    pubsub.calls (pubsub m1) = pubsub.calls (pubsub m) ++ new ∧
    pubsub.count pubsub.is_Publish new = 0 ∧
    Send ctx broker event m =
    match WritePubSubMessage ctx event with
    | inl err => Returned (Some err) m1
    | inr msg =>
        Returned (publish_Get (pubsub.calls (pubsub m1)) ctx topic msg)
          {| pubsub := {| pubsub.next := pubsub.next (pubsub m1);
                          pubsub.calls := pubsub.calls (pubsub m1)
                                            ++ [pubsub.Publish topic msg] |};
             topics := topics m1; brokerConfig := brokerConfig m1;
             enableEventFiltering := enableEventFiltering m1 |}
    end.
Proof.
  intros Hc Hpass.
  destruct (getTopicForBroker_configured ctx broker m id Hc)
    as (topic & m1 & new & Hres & Hid & Hh & Hbc & Hen & Hcalls & Hcount).
  pose proof Hc as (t & _ & _ & Hv & _).
  assert (Value (brokerConfig m1) = iface_TargetsConfig t) as Hv1 by by rewrite Hbc.
  destruct (Send_resolved_cases ctx broker event m topic m1 t Hres Hv1)
    as (r & _ & Hiff & HSend).
  exists topic, m1, new. split_and!; try done.
  rewrite HSend, Hen.
  destruct Hpass as [-> | (t' & Hv' & Hi)]; [done|].
  assert (t' = t) as -> by congruence.
  apply Hiff in Hi as ->. by rewrite andb_false_r.
Qed.

(** X6.  A sink whose store was never stored into panics on every [Send],
    before it touches its registry or the queue client. *)
Theorem Send_before_Store_panics ctx broker event m :
  Value (brokerConfig m) = iface_nil →
  Send ctx broker event m = Panicked m.
Proof.
  intros Hv. apply Send_panics.
  unfold getTopicIDForBroker, bind, on_brokerConfig, GetBrokerByKey, Load, atomic_Load.
  by rewrite Hv.
Qed.

(** X7.  Over a stored snapshot the classification is complete and
    exclusive: either the broker is configured with a non-empty topic
    identifier in state READY, or [Send] returns an error that wraps exactly
    one of [ErrNotFound], [ErrIncomplete], [ErrNotReady] and leaves the sink
    as it was. *)
Theorem Send_classifies ctx broker event m t :
  Value (brokerConfig m) = iface_TargetsConfig t →
  (∃ id, configured_topic (brokerConfig m) broker id) ∨
  (∃ err,
      Send ctx broker event m = Returned (Some err) m ∧
      (errors_Is err ErrNotFound, errors_Is err ErrIncomplete, errors_Is err ErrNotReady)
        ∈ [(true, false, false); (false, true, false); (false, false, true)]).
Proof.
  intros Hv.
  pose proof (getTopicIDForBroker_stored ctx broker m t Hv) as Hid.
  destruct (broker_in t broker) as [b|] eqn:Hb.
  - destruct (DecoupleQueue b) as [q|] eqn:Hq.
    + destruct (decide (Queue_Topic q = "")).
      * right. eexists. split; [by apply Send_unresolved|]. set_solver.
      * destruct (decide (Queue_State q ≠ State_READY)).
        -- right. eexists. split; [by apply Send_unresolved|]. set_solver.
        -- left. exists (Queue_Topic q). by eapply getTopicIDForBroker_inr.
    + right. eexists. split; [by apply Send_unresolved|]. set_solver.
  - right. eexists. split; [by apply Send_unresolved|]. set_solver.
Qed.

(** X8.  With filtering disabled, an event for a configured broker that
    the encoder accepts is always published, whatever the targets of the
    snapshot are: [Send] makes exactly one [Publish] call, on the handle
    that resolves for the broker, whose [ID] is the last segment of the
    configured identifier (the configured identifier itself when it
    contains no ['/']), and returns the outcome of that publish as it
    is. *)
Theorem Send_forwards_unfiltered ctx broker event m id msg :
  enableEventFiltering m = false →
  configured_topic (brokerConfig m) broker id →
  WritePubSubMessage ctx event = inr msg →
  ∃ topic m1 m',
    getTopicForBroker ctx broker m = Returned (inr topic) m1 ∧
    pubsub.ID topic = pubsub.last_segment id ∧
    (pubsub.slash_free id → pubsub.ID topic = id) ∧
    Send ctx broker event m =
      Returned (publish_Get (pubsub.calls (pubsub m1)) ctx topic msg) m' ∧
    pubsub.calls (pubsub m') = pubsub.calls (pubsub m1) ++ [pubsub.Publish topic msg] ∧
    pubsub.count pubsub.is_Publish (pubsub.calls (pubsub m')) =
      pubsub.count pubsub.is_Publish (pubsub.calls (pubsub m)) + 1.
Proof.
  intros Hen Hc Henc.
  destruct (Send_not_dropped ctx broker event m id Hc (or_introl Hen))
    as (topic & m1 & new & Hres & Hid & _ & Hcalls & Hcount & HSend).
  rewrite Henc in HSend. eexists topic, m1, _.
  split_and!; [done..| |exact HSend|done|].
  { intros Hfree. by rewrite Hid, (last_segment_id id Hfree). }
  simpl.
  rewrite Hcalls, !count_app, Hcount. unfold pubsub.count. simpl. lia.
Qed.

(** X9.  With filtering enabled, one interested target anywhere in the
    snapshot is enough for the event to be published on the handle that
    resolves for the addressed broker, also when that target belongs to
    another broker.  The [ID] of that handle is the last segment of the
    configured identifier (the configured identifier itself when it
    contains no ['/']), and [Send] returns the outcome of the publish. *)
Theorem Send_forwards_interesting ctx broker event m t id msg :
  Value (brokerConfig m) = iface_TargetsConfig t →
  interested_anywhere ctx event t →
  configured_topic (brokerConfig m) broker id →
  WritePubSubMessage ctx event = inr msg →
  ∃ topic m1 m',
    getTopicForBroker ctx broker m = Returned (inr topic) m1 ∧
    pubsub.ID topic = pubsub.last_segment id ∧
    (pubsub.slash_free id → pubsub.ID topic = id) ∧
    Send ctx broker event m =
      Returned (publish_Get (pubsub.calls (pubsub m1)) ctx topic msg) m' ∧
    pubsub.calls (pubsub m') = pubsub.calls (pubsub m1) ++ [pubsub.Publish topic msg] ∧
    pubsub.count pubsub.is_Publish (pubsub.calls (pubsub m')) =
      pubsub.count pubsub.is_Publish (pubsub.calls (pubsub m)) + 1.
Proof.
  intros Hv Hi Hc Henc.
  destruct (Send_not_dropped ctx broker event m id Hc
              (or_intror (ex_intro _ t (conj Hv Hi))))
    as (topic & m1 & new & Hres & Hid & _ & Hcalls & Hcount & HSend).
  rewrite Henc in HSend. eexists topic, m1, _.
  split_and!; [done..| |exact HSend|done|].
  { intros Hfree. by rewrite Hid, (last_segment_id id Hfree). }
  simpl.
  rewrite Hcalls, !count_app, Hcount. unfold pubsub.count. simpl. lia.
Qed.

(** X10.  When the encoder rejects an event that the filter did not drop,
    [Send] returns the encoder's error and publishes nothing; the handle
    that was resolved for the broker stays filed in the registry. *)
Theorem Send_encoding_failure ctx broker event m id err :
  configured_topic (brokerConfig m) broker id →
  (enableEventFiltering m = false ∨
   ∃ t, Value (brokerConfig m) = iface_TargetsConfig t ∧ interested_anywhere ctx event t) →
  WritePubSubMessage ctx event = inl err →
  ∃ topic m',
    Send ctx broker event m = Returned (Some err) m' ∧
    getTopicForBroker ctx broker m = Returned (inr topic) m' ∧
    topics m' !! broker = Some topic ∧
    pubsub.count pubsub.is_Publish (pubsub.calls (pubsub m')) =
      pubsub.count pubsub.is_Publish (pubsub.calls (pubsub m)).
Proof.
  intros Hc Hpass Henc.
  destruct (Send_not_dropped ctx broker event m id Hc Hpass)
    as (topic & m1 & new & Hres & Hid & Hh & Hcalls & Hcount & HSend).
  rewrite Henc in HSend. exists topic, m1. split_and!; [done..|].
  rewrite Hcalls, count_app, Hcount. lia.
Qed.

(** X11.  Let the configured identifier contain no ['/'].  Whatever was
    cached before, after a [Send] to the configured broker the registry
    files under that broker a handle whose [ID] is the configured
    identifier, and resolving the broker again returns this handle on the
    fast path, changing nothing. *)
Theorem Send_files_configured_topic ctx broker event m id :
  pubsub.slash_free id →
  configured_topic (brokerConfig m) broker id →
  ∃ r m' h,
    Send ctx broker event m = Returned r m' ∧
    topics m' !! broker = Some h ∧
    pubsub.ID h = id ∧
    ∀ ctx', getTopicForBroker ctx' broker m' = Returned (inr h) m'.
Proof.
  intros Hfree Hc.
  destruct (getTopicForBroker_configured ctx broker m id Hc)
    as (topic & m1 & new & Hres & Hid & Hh & Hbc & _).
  rewrite (last_segment_id id Hfree) in Hid.
  pose proof Hc as (t & _ & _ & Hv & _).
  assert (Value (brokerConfig m1) = iface_TargetsConfig t) as Hv1 by by rewrite Hbc.
  destruct (Send_resolved ctx broker event m topic m1 t Hres Hv1)
    as (r & pubs & HSend & _).
  eexists r, _, topic. split; [exact HSend|]. simpl.
  split_and!; [done..|].
  intros ctx'. apply (getTopicForBroker_cached _ _ _ id); simpl; [|done..].
  by rewrite Hbc.
Qed.

(** The calls of [Send] after the handle is resolved: none, or one
    [Publish] on that handle of the encoded event. *)
Lemma Send_resolved_calls ctx broker event m topic m1 t :
  getTopicForBroker ctx broker m = Returned (inr topic) m1 →
  Value (brokerConfig m1) = iface_TargetsConfig t →
  ∃ pubs,
    pubsub.calls (pubsub (final_sink (Send ctx broker event m))) =
      pubsub.calls (pubsub m1) ++ pubs ∧
    topics (final_sink (Send ctx broker event m)) = topics m1 ∧
    pubsub.next (pubsub (final_sink (Send ctx broker event m))) = pubsub.next (pubsub m1) ∧
    (pubs = [] ∨
     ∃ msg, pubs = [pubsub.Publish topic msg] ∧ WritePubSubMessage ctx event = inr msg).
Proof.
  intros Hres Hv.
  destruct (Send_resolved_cases ctx broker event m topic m1 t Hres Hv)
    as (r & _ & _ & ->).
  destruct (enableEventFiltering m1 && negb r).
  - exists []. simpl. rewrite app_nil_r. split_and!; [done..|by left].
  - destruct (WritePubSubMessage ctx event) as [err|msg].
    + exists []. simpl. rewrite app_nil_r. split_and!; [done..|by left].
    + exists [pubsub.Publish topic msg]. simpl. split_and!; [done..|right].
      by exists msg.
Qed.

(** The calls one [Send] makes, with the handle it creates made explicit. *)
Lemma Send_calls_shape ctx broker event m :
  ∃ lifecycle pubs,
    pubsub.calls (pubsub (final_sink (Send ctx broker event m))) =
      pubsub.calls (pubsub m) ++ lifecycle ++ pubs ∧
    ((lifecycle = [] ∧
      topics (final_sink (Send ctx broker event m)) = topics m ∧
      pubsub.next (pubsub (final_sink (Send ctx broker event m))) = pubsub.next (pubsub m)) ∨
     (∃ id,
         lifecycle = [pubsub.NewTopic (pubsub.mkTopic (pubsub.next (pubsub m)) id)] ∧
         topics m !! broker = None ∧
         topics (final_sink (Send ctx broker event m)) =
           <[broker := pubsub.mkTopic (pubsub.next (pubsub m)) id]> (topics m) ∧
         pubsub.next (pubsub (final_sink (Send ctx broker event m))) =
           S (pubsub.next (pubsub m))) ∨
     (∃ old id,
         lifecycle = [pubsub.Stop old;
                      pubsub.NewTopic (pubsub.mkTopic (pubsub.next (pubsub m)) id)] ∧
         topics m !! broker = Some old ∧
         pubsub.ID old ≠ id ∧
         topics (final_sink (Send ctx broker event m)) =
           <[broker := pubsub.mkTopic (pubsub.next (pubsub m)) id]> (topics m) ∧
         pubsub.next (pubsub (final_sink (Send ctx broker event m))) =
           S (pubsub.next (pubsub m)))) ∧
    (pubs = [] ∨
     ∃ h msg, pubs = [pubsub.Publish h msg] ∧
              topics (final_sink (Send ctx broker event m)) !! broker = Some h ∧
              WritePubSubMessage ctx event = inr msg).
Proof.
  destruct (getTopicIDForBroker_frame ctx broker m) as [HP|[[err|id] HR]].
  - rewrite (Send_panics _ _ _ _ HP). exists [], []. simpl. rewrite app_nil_r.
    split_and!; [done|by left|by left].
  - rewrite (Send_unresolved _ _ _ _ _ HR). exists [], []. simpl.
    rewrite app_nil_r. split_and!; [done|by left|by left].
  - pose proof (getTopicIDForBroker_inr _ _ _ _ _ HR) as Hc.
    pose proof Hc as (t & _ & _ & Hv & _).
    destruct (topics m !! broker) as [h|] eqn:Hh;
      [destruct (decide (pubsub.ID h = id)) as [Hid|Hid]|].
    + destruct (Send_resolved_calls ctx broker event m h m t
                  (getTopicForBroker_cached _ _ _ _ _ Hc Hh Hid) Hv)
        as (pubs & -> & -> & -> & Hpubs).
      exists [], pubs. split_and!; [done|by left|].
      destruct Hpubs as [->|(msg & -> & Henc)]; [by left|right]. by exists h, msg.
    + pose proof (getTopicForBroker_stale ctx _ _ _ _ Hc Hh Hid) as Hres. simpl in Hres.
      destruct (Send_resolved_calls ctx broker event m _ _ t Hres Hv)
        as (pubs & -> & -> & -> & Hpubs). simpl.
      eexists [_; _], pubs. split_and!.
      * by rewrite <- app_assoc.
      * right; right. by exists h, id.
      * destruct Hpubs as [->|(msg & -> & Henc)]; [by left|right].
        eexists _, msg. split_and!; [done| |done]. by rewrite lookup_insert_eq.
    + pose proof (getTopicForBroker_absent ctx _ _ _ Hc Hh) as Hres. simpl in Hres.
      destruct (Send_resolved_calls ctx broker event m _ _ t Hres Hv)
        as (pubs & -> & -> & -> & Hpubs). simpl.
      eexists [_], pubs. split_and!.
      * by rewrite <- app_assoc.
      * right; left. by exists id.
      * destruct Hpubs as [->|(msg & -> & Henc)]; [by left|right].
        eexists _, msg. split_and!; [done| |done]. by rewrite lookup_insert_eq.
Qed.

(** X12.  The calls one [Send] makes on the queue client, in every case
    (panic and classified errors included): first, either nothing, with the
    registry unchanged; or the creation of one handle, when none was filed
    under the broker; or one [Stop] of the handle that was filed under the
    broker followed by the creation of one handle for an identifier that
    differs from what [ID] returns for the stopped handle (which is the
    case, too, when the handle was created for that very identifier and
    the identifier has a ['/'] in it).  The new handle is a new object and
    replaces the entry of the broker.  Then at most one [Publish], of the encoded event, on the
    handle the registry files under the broker afterwards. *)
Theorem Send_calls ctx broker event m :
  ∃ lifecycle pubs,
    pubsub.calls (pubsub (final_sink (Send ctx broker event m))) =
      pubsub.calls (pubsub m) ++ lifecycle ++ pubs ∧
    ((lifecycle = [] ∧
      topics (final_sink (Send ctx broker event m)) = topics m ∧
      pubsub.next (pubsub (final_sink (Send ctx broker event m))) = pubsub.next (pubsub m)) ∨
     (∃ id,
         lifecycle = [pubsub.NewTopic (pubsub.mkTopic (pubsub.next (pubsub m)) id)] ∧
         topics m !! broker = None ∧
         topics (final_sink (Send ctx broker event m)) =
           <[broker := pubsub.mkTopic (pubsub.next (pubsub m)) id]> (topics m) ∧
         pubsub.next (pubsub (final_sink (Send ctx broker event m))) =
           S (pubsub.next (pubsub m))) ∨
     (∃ old id,
         lifecycle = [pubsub.Stop old;
                      pubsub.NewTopic (pubsub.mkTopic (pubsub.next (pubsub m)) id)] ∧
         topics m !! broker = Some old ∧
         pubsub.ID old ≠ id ∧
         topics (final_sink (Send ctx broker event m)) =
           <[broker := pubsub.mkTopic (pubsub.next (pubsub m)) id]> (topics m) ∧
         pubsub.next (pubsub (final_sink (Send ctx broker event m))) =
           S (pubsub.next (pubsub m)))) ∧
    (pubs = [] ∨
     ∃ h msg, pubs = [pubsub.Publish h msg] ∧
              topics (final_sink (Send ctx broker event m)) !! broker = Some h ∧
              WritePubSubMessage ctx event = inr msg).
Proof. apply Send_calls_shape. Qed.

Lemma final_sink_bind_ret {A B} (c : M A) (g : A → B) m :
  final_sink (bind c (λ a, ret (g a)) m) = final_sink (c m).
Proof. unfold bind. by destruct (c m). Qed.

Lemma Send_spares ctx broker event m k :
  broker ≠ k →
  topics (final_sink (Send ctx broker event m)) !! k = topics m !! k.
Proof.
  intros Hne.
  destruct (Send_frame ctx broker event m) as (_ & _ & [[-> _]|(id & -> & _)]);
    [done|]. by rewrite lookup_insert_ne.
Qed.

(** One [Send] to another broker makes no call on the handle filed under
    [k] in a well-formed sink. *)
Lemma Send_spares_calls ctx broker event m k hk :
  wf m → topics m !! k = Some hk → broker ≠ k →
  ∃ new,
    pubsub.calls (pubsub (final_sink (Send ctx broker event m))) =
      pubsub.calls (pubsub m) ++ new ∧
    Forall (λ c, ¬ pubsub.touches hk c) new.
Proof.
  intros Hwf Hk Hne.
  pose proof (wf_Send ctx broker event m Hwf) as [_ Hinj'].
  pose proof Hwf as [_ Hinj].
  pose proof (Send_spares ctx broker event m k Hne) as Hk'. rewrite Hk in Hk'.
  destruct (Send_calls_shape ctx broker event m)
    as (lifecycle & pubs & -> & Hlife & Hpubs).
  exists (lifecycle ++ pubs). split; [done|]. apply Forall_app. split.
  - destruct Hlife as [[-> _]|[(id & -> & _ & Htp & _)|(old & id & -> & Hold & _ & Htp & _)]].
    + done.
    + assert (topics (final_sink (Send ctx broker event m)) !! broker =
              Some (pubsub.mkTopic (pubsub.next (pubsub m)) id)) as Hh
        by by rewrite Htp, lookup_insert_eq.
      apply Forall_singleton. intros Hp.
      by specialize (Hinj' _ _ _ _ Hh Hk' Hp).
    + assert (topics (final_sink (Send ctx broker event m)) !! broker =
              Some (pubsub.mkTopic (pubsub.next (pubsub m)) id)) as Hh
        by by rewrite Htp, lookup_insert_eq.
      apply Forall_cons. split; [|apply Forall_singleton]; intros Hp.
      * by specialize (Hinj _ _ _ _ Hold Hk Hp).
      * by specialize (Hinj' _ _ _ _ Hh Hk' Hp).
  - destruct Hpubs as [->|(h & msg & -> & Hh & _)]; [done|].
    apply Forall_singleton. simpl. intros Hp.
    by specialize (Hinj' _ _ _ _ Hh Hk' Hp).
Qed.

(** X13.  Brokers do not interfere.  Over a run in which no [Send] is
    addressed to the broker [k], whatever snapshots are stored and whatever
    the other sends do (panics included), the registry entry of [k] stays
    what it was; and when the sink is well-formed and a handle is filed
    under [k], no call of the run creates, stops or publishes on that
    handle object. *)
Theorem run_spares_other_brokers k steps :
  ∀ m,
    Forall (spares k) steps →
    topics (final_sink (run steps m)) !! k = topics m !! k ∧
    ∀ hk, wf m → topics m !! k = Some hk →
          ∃ new,
            pubsub.calls (pubsub (final_sink (run steps m))) =
              pubsub.calls (pubsub m) ++ new ∧
            Forall (λ c, ¬ pubsub.touches hk c) new.
Proof.
  induction steps as [|st steps IH]; intros m Hsteps.
  - simpl. split; [done|]. intros hk _ _. exists []. by rewrite app_nil_r.
  - apply Forall_cons in Hsteps as [Hst Hsteps].
    destruct st as [t|ctx broker event]; simpl in Hst; simpl run;
      rewrite final_sink_bind.
    + simpl. destruct (IH (final_sink (Store_brokerConfig t m)) Hsteps) as [Htp Hlog].
      split; [exact Htp|]. intros hk Hwf Hk. by apply Hlog.
    + pose proof (Send_spares ctx broker event m k Hst) as Hk1.
      pose proof (wf_Send ctx broker event m) as Hwf1.
      pose proof (Send_spares_calls ctx broker event m k) as Hlog1.
      destruct (Send ctx broker event m) as [r m1|m1]; simpl in *.
      * rewrite final_sink_bind_ret.
        destruct (IH m1 Hsteps) as [Htp Hlog].
        split; [by rewrite Htp|]. intros hk Hwf Hk.
        destruct (Hlog1 hk Hwf Hk Hst) as (new1 & Hc1 & Hn1).
        destruct (Hlog hk (Hwf1 Hwf)) as (new2 & Hc2 & Hn2); [by rewrite Hk1|].
        exists (new1 ++ new2). rewrite Hc2, Hc1, app_assoc. split; [done|].
        by apply Forall_app.
      * split; [done|]. intros hk Hwf Hk. by apply Hlog1.
Qed.

(** X14.  Every sink reached from a new sink by storing snapshots and
    sending events is well-formed: every handle in the registry was handed
    out by the client, and no handle object is filed under two brokers. *)
Theorem reachable_wf Getenv ct n calls steps :
  wf (final_sink (run steps (NewMultiTopicDecoupleSink Getenv ct (pubsub.mkClient n calls)))).
Proof. apply wf_run, wf_New. Qed.

(** *** Handles over a whole run *)

Lemma accounted_Send ctx broker event m :
  accounted m → accounted (final_sink (Send ctx broker event m)).
Proof.
  unfold accounted. intros Hacc.
  destruct (Send_calls_shape ctx broker event m)
    as (lifecycle & pubs & -> & Hlife & Hpubs).
  assert (pubsub.count pubsub.is_NewTopic pubs = 0 ∧
          pubsub.count pubsub.is_Stop pubs = 0) as [Hpn Hps]
    by by destruct Hpubs as [->|(h & msg & -> & _)].
  rewrite !count_app, Hpn, Hps, Hacc.
  destruct Hlife as [(-> & -> & _)|[(id & -> & Hno & -> & _)|(old & id & -> & Hold & _ & -> & _)]].
  - unfold pubsub.count. simpl. lia.
  - rewrite (map_size_insert_None _ _ _ Hno). unfold pubsub.count. simpl. lia.
  - rewrite map_size_insert_Some by (by rewrite Hold). unfold pubsub.count. simpl. lia.
Qed.

(** X15.  No handle leaks.  In every sink reached from a new sink over a
    client on which no call was made yet, each handle the client created is
    either filed in the registry or was stopped: the number of handles
    created equals the number of handles stopped plus the number of brokers
    with a filed handle. *)
Theorem reachable_accounted Getenv ct n steps :
  accounted (final_sink (run steps
               (NewMultiTopicDecoupleSink Getenv ct (pubsub.mkClient n [])))).
Proof.
  apply (run_invariant accounted); [done| |].
  - intros *. apply accounted_Send.
  - unfold accounted. simpl. by rewrite map_size_empty.
Qed.

Lemma retired_Send h ctx broker event m :
  retired h m → retired h (final_sink (Send ctx broker event m)).
Proof.
  intros [Hlt Hno].
  destruct (Send_frame ctx broker event m) as (_ & _ & [[Htp Hn]|(id & Htp & Hn)]);
    unfold retired; rewrite Htp, Hn; [done|].
  split; [lia|].
  intros k h'. rewrite lookup_insert. case_decide.
  - intros [= <-]. simpl. lia.
  - apply Hno.
Qed.

Lemma no_use_after_stop_app (l new : list (pubsub.call Message)) :
  pubsub.no_use_after_stop (l ++ new) ↔
  pubsub.no_use_after_stop l ∧ pubsub.no_use_after_stop new ∧
  ∀ h, pubsub.Stop h ∈ l → Forall (λ c, ¬ pubsub.touches h c) new.
Proof.
  induction l as [|c l IH]; simpl.
  - split; [intros H; split_and!; [done..|]|by intros (_ & H & _)].
    intros h Hin. by apply elem_of_nil in Hin.
  - rewrite IH. split.
    + intros (Hc & Hl & Hnew & Hall). split_and!; try done.
      * destruct c; try done. by apply Forall_app in Hc as [Hc _].
      * intros h [<-|Hin]%elem_of_cons; [|by apply Hall].
        by apply Forall_app in Hc as [_ Hc].
    + intros ((Hc & Hl) & Hnew & Hall). split_and!; try done.
      * destruct c as [| h |]; try done. apply Forall_app. split; [done|].
        apply Hall. by left.
      * intros h Hin. apply Hall. by right.
Qed.

Lemma stops_respected_Send ctx broker event m :
  stops_respected m → stops_respected (final_sink (Send ctx broker event m)).
Proof.
  intros (Hwf & Hret & Hlog).
  pose proof (wf_Send ctx broker event m Hwf) as Hwf'.
  pose proof Hwf as [Hlt Hinj].
  destruct (Send_calls_shape ctx broker event m)
    as (lifecycle & pubs & Hcalls & Hlife & Hpubs).
  assert (∀ h, pubsub.Stop h ∈ lifecycle →
               retired h (final_sink (Send ctx broker event m)) ∧
               Forall (λ c, ¬ pubsub.touches h c) pubs) as Hnewstop.
  { intros h Hin.
    destruct Hlife as [(-> & _)|[(id & -> & _)|(old & id & -> & Hold & _ & Htp & Hn)]].
    - by apply elem_of_nil in Hin.
    - apply list_elem_of_singleton in Hin. done.
    - apply elem_of_cons in Hin as [[= ->]|Hin];
        [|apply list_elem_of_singleton in Hin; done].
      specialize (Hlt _ _ Hold).
      split_and!.
      + unfold retired. rewrite Hn, Htp. split; [lia|].
        intros k h'. rewrite lookup_insert. case_decide.
        * intros [= <-]. simpl. lia.
        * intros Hk Hp. by specialize (Hinj _ _ _ _ Hk Hold Hp).
      + destruct Hpubs as [->|(hp & msg & -> & Hhp & _)]; [done|].
        apply Forall_singleton. rewrite Htp, lookup_insert_eq in Hhp.
        injection Hhp as <-. simpl. lia. }
  split_and!; [done| |].
  - intros h. rewrite Hcalls, !elem_of_app.
    intros [Hin|[Hin|Hin]].
    + by apply retired_Send, Hret.
    + by apply Hnewstop.
    + destruct Hpubs as [->|(hp & msg & -> & _)];
        [by apply elem_of_nil in Hin|by apply list_elem_of_singleton in Hin].
  - rewrite Hcalls. apply no_use_after_stop_app. split_and!; [done| |].
    + apply no_use_after_stop_app. split_and!.
      * destruct Hlife as [(-> & _)|[(id & -> & _)|(old & id & -> & Hold & _ & Htp & Hn)]];
          simpl; [done..|].
        split_and!; [|done..]. apply Forall_singleton. simpl.
        specialize (Hlt _ _ Hold). lia.
      * by destruct Hpubs as [->|(hp & msg & -> & _)].
      * intros h Hin. by apply Hnewstop.
    + intros h Hin. specialize (Hret h Hin).
      pose proof (retired_Send h ctx broker event m Hret) as [_ Hno'].
      destruct Hret as [Hlth Hno].
      apply Forall_app. split.
      * destruct Hlife as [(-> & _)|[(id & -> & _)|(old & id & -> & Hold & _)]].
        -- done.
        -- apply Forall_singleton. simpl. lia.
        -- apply Forall_cons. split; [by apply (Hno broker)|].
           apply Forall_singleton. simpl. lia.
      * destruct Hpubs as [->|(hp & msg & -> & Hhp & _)]; [done|].
        apply Forall_singleton. by apply (Hno' broker).
Qed.

Lemma no_use_after_stop_split (l1 l2 : list (pubsub.call Message)) h :
  pubsub.no_use_after_stop (l1 ++ pubsub.Stop h :: l2) →
  Forall (λ c, ¬ pubsub.touches h c) l2.
Proof.
  intros (_ & Hs & _)%no_use_after_stop_app. by destruct Hs as [Hs _].
Qed.

(** X16.  No use after stop.  In the log of calls of every sink reached
    from a new sink over a client on which no call was made yet, a [Stop]
    of a handle is never followed by a call on that handle object: it is
    not published on, not stopped a second time, and not handed out again. *)
Theorem reachable_no_use_after_stop Getenv ct n steps l1 h l2 :
  pubsub.calls (pubsub (final_sink (run steps
    (NewMultiTopicDecoupleSink Getenv ct (pubsub.mkClient n []))))) =
    l1 ++ pubsub.Stop h :: l2 →
  Forall (λ c, ¬ pubsub.touches h c) l2.
Proof.
  intros Hcalls. apply (no_use_after_stop_split l1). rewrite <- Hcalls.
  apply (run_invariant stops_respected); [done| |].
  - intros *. apply stops_respected_Send.
  - split_and!; [apply wf_New| |done].
    intros h' Hin. by apply elem_of_nil in Hin.
Qed.

(** *** One handle for an unchanged identifier *)

(** Over a stored snapshot [Send] returns. *)
Lemma Send_returns ctx broker event m t :
  Value (brokerConfig m) = iface_TargetsConfig t →
  ∃ r m', Send ctx broker event m = Returned r m'.
Proof.
  intros Hv.
  destruct (getTopicIDForBroker_frame ctx broker m) as [HP|[[err|id] HR]].
  - rewrite (getTopicIDForBroker_stored _ _ _ _ Hv) in HP. done.
  - eexists _, _. by apply Send_unresolved.
  - pose proof (getTopicIDForBroker_inr _ _ _ _ _ HR) as Hc.
    destruct (getTopicForBroker_configured ctx broker m id Hc)
      as (topic & m1 & new & Hres & _ & _ & Hbc & _).
    assert (Value (brokerConfig m1) = iface_TargetsConfig t) as Hv1 by by rewrite Hbc.
    destruct (Send_resolved ctx broker event m topic m1 t Hres Hv1)
      as (r & pubs & HSend & _).
    by eexists _, _.
Qed.

(** Over a stored snapshot, the broker is configured or [Send] fails and
    leaves the sink as it was. *)
Lemma Send_cases ctx broker event m t :
  Value (brokerConfig m) = iface_TargetsConfig t →
  (∃ id, configured_topic (brokerConfig m) broker id) ∨
  ((∀ id, ¬ configured_topic (brokerConfig m) broker id) ∧
   ∃ err, Send ctx broker event m = Returned (Some err) m).
Proof.
  intros Hv.
  destruct (getTopicIDForBroker_frame ctx broker m) as [HP|[[err|id] HR]].
  - rewrite (getTopicIDForBroker_stored _ _ _ _ Hv) in HP. done.
  - right. split.
    + intros id Hc. by rewrite (getTopicIDForBroker_configured ctx _ _ _ Hc) in HR.
    + exists err. by apply Send_unresolved.
  - left. exists id. by eapply getTopicIDForBroker_inr.
Qed.

Lemma run_DoSend ctx broker event steps m r m1 rs m' :
  Send ctx broker event m = Returned r m1 →
  run steps m1 = Returned rs m' →
  run (DoSend ctx broker event :: steps) m = Returned (r :: rs) m'.
Proof. intros HSend Hrun. simpl. unfold bind. by rewrite HSend, Hrun. Qed.

Lemma calls_of_DoSend ctx broker b event steps m r m1 :
  Send ctx b event m = Returned r m1 →
  calls_of broker (DoSend ctx b event :: steps) m =
  (if decide (b = broker)
   then drop (length (pubsub.calls (pubsub m))) (pubsub.calls (pubsub m1))
   else []) ++ calls_of broker steps m1.
Proof. intros HSend. simpl. by rewrite HSend. Qed.

(** Once a handle whose [ID] is [id] is filed under [broker], the [Send]s
    addressed to [broker] only publish on it. *)
Lemma calls_of_cached broker id h steps :
  ∀ m,
    pubsub.ID h = id →
    topics m !! broker = Some h →
    topic_unchanged broker id steps (brokerConfig m) →
    ∃ rs m',
      run steps m = Returned rs m' ∧
      Forall (publishes_to h) (calls_of broker steps m) ∧
      topics m' !! broker = Some h.
Proof.
  induction steps as [|st steps IH]; intros m Hid Hh Hun.
  - exists [], m. done.
  - destruct st as [t|ctx b event]; simpl in Hun; destruct Hun as [[[t0 Hv] Honly] Hun].
    + destruct (IH (final_sink (Store_brokerConfig t m)) Hid Hh Hun) as (rs & m' & Hrun & ?).
      exists rs, m'. split; [|done]. simpl. unfold bind. exact Hrun.
    + destruct (decide (b = broker)) as [->|Hne].
      * destruct (Send_cases ctx broker event m t0 Hv) as [[id' Hc]|[Hnc [err HSend]]].
        -- rewrite (Honly id' Hc) in Hc.
           destruct (Send_cached ctx broker event m id h Hc Hh Hid)
             as (r & pubs & HSend & Hto).
           edestruct IH as (rs & m' & Hrun & Hrest & Hh'); [exact Hid| | |].
           3:{ exists (r :: rs), m'. split; [by eapply run_DoSend|].
               rewrite (calls_of_DoSend _ _ _ _ _ _ _ _ HSend), decide_True by done.
               simpl. rewrite drop_app_length. split; [by apply Forall_app|done]. }
           ++ done.
           ++ done.
        -- destruct (IH m Hid Hh Hun) as (rs & m' & Hrun & Hrest & Hh').
           exists (Some err :: rs), m'. split; [by eapply run_DoSend|].
           rewrite (calls_of_DoSend _ _ _ _ _ _ _ _ HSend), decide_True by done.
           by rewrite drop_all.
      * destruct (Send_returns ctx b event m t0 Hv) as (r & m1 & HSend).
        pose proof (Send_frame ctx b event m) as (Hbc & _).
        pose proof (Send_spares ctx b event m broker Hne) as Hsp.
        rewrite HSend in Hbc, Hsp. simpl in Hbc, Hsp.
        edestruct (IH m1) as (rs & m' & Hrun & Hrest & Hh'); [exact Hid| | |].
        3:{ exists (r :: rs), m'. split; [by eapply run_DoSend|].
            rewrite (calls_of_DoSend _ _ _ _ _ _ _ _ HSend), decide_False by done.
            done. }
        -- by rewrite Hsp.
        -- by rewrite Hbc.
Qed.

(** C5 (as amended).  Let [id] contain no ['/'], let no handle be filed
    under [broker], and take any run of [Store]s and [Send]s, to any
    brokers, during which the topic of [broker], whenever it resolves,
    resolves to [id].  Every call of the run returns.  If no [Send] to
    [broker] finds its topic resolving, the [Send]s to [broker] make no call
    on the queue client.  Otherwise the first [Send] to [broker] that
    resolves the topic creates a handle for [id], every other call the
    [Send]s to [broker] make is a [Publish] on this same handle, and the
    registry files it under [broker] at the end: the [Send]s to [broker]
    create exactly one handle and stop none. *)
Theorem Send_creates_one_topic broker id steps :
  ∀ m,
    pubsub.slash_free id →
    topic_unchanged broker id steps (brokerConfig m) →
    topics m !! broker = None →
    ∃ rs m',
      run steps m = Returned rs m' ∧
      (¬ resolved_in broker id steps (brokerConfig m) →
       calls_of broker steps m = [] ∧ topics m' !! broker = None) ∧
      (resolved_in broker id steps (brokerConfig m) →
       ∃ h pubs,
         calls_of broker steps m = pubsub.NewTopic h :: pubs ∧
         Forall (publishes_to h) pubs ∧
         pubsub.topic_id h = id ∧
         topics m' !! broker = Some h ∧
         pubsub.count pubsub.is_NewTopic (calls_of broker steps m) = 1 ∧
         pubsub.count pubsub.is_Stop (calls_of broker steps m) = 0).
Proof.
  induction steps as [|st steps IH]; intros m Hfree Hun Hh.
  - exists [], m. split_and!; [done|done|]. intros [].
  - destruct st as [t|ctx b event]; simpl in Hun; destruct Hun as [[[t0 Hv] Honly] Hun].
    + destruct (IH (final_sink (Store_brokerConfig t m)) Hfree Hun Hh)
        as (rs & m' & Hrun & Hno & Hyes).
      exists rs, m'. split; [|done]. simpl. unfold bind. exact Hrun.
    + assert (∀ r m1,
                Send ctx b event m = Returned r m1 →
                brokerConfig m1 = brokerConfig m →
                topics m1 !! broker = None →
                ¬ (b = broker ∧ configured_topic (brokerConfig m) broker id) →
                (if decide (b = broker)
                 then drop (length (pubsub.calls (pubsub m))) (pubsub.calls (pubsub m1))
                 else []) = [] →
                ∃ rs m',
                  run (DoSend ctx b event :: steps) m = Returned rs m' ∧
                  (¬ resolved_in broker id (DoSend ctx b event :: steps) (brokerConfig m) →
                   calls_of broker (DoSend ctx b event :: steps) m = [] ∧
                   topics m' !! broker = None) ∧
                  (resolved_in broker id (DoSend ctx b event :: steps) (brokerConfig m) →
                   ∃ h pubs,
                     calls_of broker (DoSend ctx b event :: steps) m =
                       pubsub.NewTopic h :: pubs ∧
                     Forall (publishes_to h) pubs ∧
                     pubsub.topic_id h = id ∧
                     topics m' !! broker = Some h ∧
                     pubsub.count pubsub.is_NewTopic
                       (calls_of broker (DoSend ctx b event :: steps) m) = 1 ∧
                     pubsub.count pubsub.is_Stop
                       (calls_of broker (DoSend ctx b event :: steps) m) = 0)) as Hskip.
      { intros r m1 HSend Hbc Hh1 Hnot Hdelta.
        edestruct (IH m1) as (rs & m' & Hrun & Hno & Hyes); [exact Hfree| | |].
        3:{ exists (r :: rs), m'. split; [by eapply run_DoSend|].
            rewrite (calls_of_DoSend _ _ _ _ _ _ _ _ HSend), Hdelta. simpl.
            rewrite Hbc in Hno, Hyes. split.
            - intros Hnr. apply Hno. intros Hr. apply Hnr. by right.
            - intros [Hr|Hr]; [done|]. by apply Hyes. }
        - by rewrite Hbc.
        - done. }
      destruct (decide (b = broker)) as [->|Hne].
      * destruct (Send_cases ctx broker event m t0 Hv) as [[id' Hc]|[Hnc [err HSend]]].
        -- rewrite (Honly id' Hc) in Hc. clear Hskip.
           pose proof (getTopicForBroker_absent ctx _ _ _ Hc Hh) as Hres. simpl in Hres.
           destruct (Send_resolved ctx broker event m _ _ t0 Hres Hv)
             as (r & pubs1 & HSend & Hto1 & _).
           simpl in HSend.
           set (h := pubsub.mkTopic (pubsub.next (pubsub m)) id) in *.
           match type of HSend with _ = Returned _ ?mm => set (m2 := mm) in * end.
           assert (pubsub.calls (pubsub m2) =
                   pubsub.calls (pubsub m) ++ pubsub.NewTopic h :: pubs1) as Hcalls2
             by (subst m2; simpl; by rewrite <- app_assoc).
           destruct (calls_of_cached broker id h steps m2) as (rs & m' & Hrun & Hrest & Hh').
           { by apply ID_mkTopic. }
           { subst m2. simpl. by rewrite lookup_insert_eq. }
           { done. }
           exists (r :: rs), m'. split; [by eapply run_DoSend|].
           rewrite (calls_of_DoSend _ _ _ _ _ _ _ _ HSend), decide_True by done.
           rewrite Hcalls2, drop_app_length. simpl.
           set (rest := pubs1 ++ calls_of broker steps m2).
           assert (Forall (publishes_to h) rest) as Hto by by apply Forall_app.
           destruct (publishes_no_lifecycle h _ Hto) as [Hn Hs].
           split; [intros Hnr; destruct Hnr; by left|]. intros _.
           exists h, rest.
           change (pubsub.NewTopic h :: rest) with ([pubsub.NewTopic h] ++ rest).
           rewrite !count_app, Hn, Hs. done.
        -- apply (Hskip (Some err) m HSend); [done|done| |].
           ++ intros [_ Hc]. by apply (Hnc id).
           ++ apply drop_all.
      * destruct (Send_returns ctx b event m t0 Hv) as (r & m1 & HSend).
        pose proof (Send_frame ctx b event m) as (Hbc & _).
        pose proof (Send_spares ctx b event m broker Hne) as Hsp.
        rewrite HSend in Hbc, Hsp. simpl in Hbc, Hsp.
        apply (Hskip r m1 HSend); [done|by rewrite Hsp| |].
        -- by intros [? _].
        -- done.
Qed.


End MoreSinkProperties.

(** ** The further properties on the small deployment *)

Lemma accessors_without_brokers_witness :
  @GetBrokerByKey slash_format b1 (Store None (stored ready_t1)) = Ok None ∧
  @GetTargetByKey slash_format (mkTargetKey b1 "orders") (Store None (stored ready_t1))
    = Ok None ∧
  @RangeAllTargets reversed_order _ (@count_on Target) (Store None (stored ready_t1)) 0
    = Ok 0 ∧
  @RangeBrokers reversed_order _ (@count_on Broker) (Store None (stored ready_t1)) 0
    = Ok 0.
Proof.
  apply (@accessors_without_brokers slash_format reversed_order (stored ready_t1) None b1
           (mkTargetKey b1 "orders") nat (@count_on Target) (@count_on Broker) 0).
  left. reflexivity.
Defined.

Lemma GetTargetByKey_found_witness :
  @GetTargetByKey slash_format (mkTargetKey b1 "orders") (stored ready_t1) =
    Ok match Some (snapshot ready_t1) with
       | None => None
       | Some c =>
           match Brokers c !! @PersistenceString slash_format
                                 (ParentKey (mkTargetKey b1 "orders")) with
           | None => None
           | Some b => Targets b !! target_name (mkTargetKey b1 "orders")
           end
       end ∧
  ∀ target,
    @GetTargetByKey slash_format (mkTargetKey b1 "orders") (stored ready_t1)
      = Ok (Some target) ↔
    ∃ c b, Some (snapshot ready_t1) = Some c ∧
           Brokers c !! @PersistenceString slash_format
                          (ParentKey (mkTargetKey b1 "orders")) = Some b ∧
           @GetBrokerByKey slash_format (ParentKey (mkTargetKey b1 "orders"))
                           (stored ready_t1) = Ok (Some b) ∧
           Targets b !! target_name (mkTargetKey b1 "orders") = Some target.
Proof.
  apply (@GetTargetByKey_found slash_format (stored ready_t1) (Some (snapshot ready_t1))
           (mkTargetKey b1 "orders")).
  reflexivity.
Defined.

(** The lookups on the small deployment: a filed target, a name the broker
    does not file, a broker the snapshot does not file. *)
Example GetTargetByKey_lookups :
  @GetTargetByKey slash_format (mkTargetKey b1 "orders") (stored ready_t1)
    = Ok (Some only_orders) ∧
  @GetTargetByKey slash_format (mkTargetKey b1 "invoices") (stored ready_t1) = Ok None ∧
  @GetTargetByKey slash_format (mkTargetKey b2 "orders") (stored ready_t1) = Ok None.
Proof. split_and!; vm_compute; reflexivity. Qed.

Lemma RangeAllTargets_visits_all_witness :
  @RangeAllTargets reversed_order _ (@count_on Target)
                   (Store (Some two_targets) zero_CachedTargets) 0 =
    Ok (fold_left (visit (@count_on Target)) (@ranged_targets reversed_order two_targets) 0) ∧
  @ranged_targets reversed_order two_targets ≡ₚ all_targets two_targets ∧
  (∀ t, t ∈ all_targets two_targets ↔
        ∃ k b n, Brokers two_targets !! k = Some b ∧ Targets b !! n = Some t) ∧
  length (all_targets two_targets) =
    sum_list ((λ b, size (Targets b)) <$> all_brokers two_targets).
Proof.
  apply (@RangeAllTargets_visits_all reversed_order
           (Store (Some two_targets) zero_CachedTargets) two_targets nat (@count_on Target) 0).
  - reflexivity.
  - reflexivity.
Defined.

(** Both targets are counted when the visitor goes on, one when it stops;
    which one the stopping visitor sees depends on the order the runtime
    chooses. *)
Example RangeAllTargets_counts :
  @RangeAllTargets listed_order _ (@count_on Target)
                   (Store (Some two_targets) zero_CachedTargets) 0 = Ok 2 ∧
  @RangeAllTargets reversed_order _ (@count_on Target)
                   (Store (Some two_targets) zero_CachedTargets) 0 = Ok 2 ∧
  @RangeAllTargets listed_order _ (@count_and_stop Target)
                   (Store (Some two_targets) zero_CachedTargets) 0 = Ok 1 ∧
  @RangeAllTargets listed_order _ (@keep_first Target)
                   (Store (Some two_targets) zero_CachedTargets) None = Ok (Some only_orders) ∧
  @RangeAllTargets reversed_order _ (@keep_first Target)
                   (Store (Some two_targets) zero_CachedTargets) None = Ok (Some no_filter).
Proof. split_and!; vm_compute; reflexivity. Qed.

Lemma RangeAllTargets_stops_early_witness :
  (∀ before t after,
      @ranged_targets reversed_order two_targets = before ++ t :: after →
      continues (@keep_first Target) before None = true →
      (@keep_first Target t (fold_left (visit (@keep_first Target)) before None)).2 = false →
      @RangeAllTargets reversed_order _ (@keep_first Target)
                       (Store (Some two_targets) zero_CachedTargets) None =
      Ok (@keep_first Target t (fold_left (visit (@keep_first Target)) before None)).1) ∧
  ((∀ t s', (@keep_first Target t s').2 = false) →
   (all_targets two_targets = [] ∧
    @RangeAllTargets reversed_order _ (@keep_first Target)
                     (Store (Some two_targets) zero_CachedTargets) None = Ok None) ∨
   (∃ t, t ∈ all_targets two_targets ∧
         @RangeAllTargets reversed_order _ (@keep_first Target)
                          (Store (Some two_targets) zero_CachedTargets) None =
         Ok (@keep_first Target t None).1)).
Proof.
  apply (@RangeAllTargets_stops_early reversed_order
           (Store (Some two_targets) zero_CachedTargets) two_targets
           (option Target) (@keep_first Target) None).
  reflexivity.
Defined.

Lemma RangeBrokers_visits_witness :
  @RangeBrokers reversed_order _ (@count_on Broker)
                (Store (Some two_brokers) zero_CachedTargets) 0 =
    Ok (fold_left (visit (@count_on Broker)) (@ranged_brokers reversed_order two_brokers) 0) ∧
  @RangeBrokers reversed_order _ (@keep_first Broker)
                (Store (Some two_brokers) zero_CachedTargets) None =
    Ok (@keep_first Broker (broker_with ready_t2)
                    (fold_left (visit (@keep_first Broker)) [] None)).1 ∧
  length (all_brokers two_brokers) = size (Brokers two_brokers).
Proof.
  destruct (@RangeBrokers_visits reversed_order
              (Store (Some two_brokers) zero_CachedTargets)
              two_brokers nat (@count_on Broker) 0 eq_refl) as (Hall & _ & _ & _ & Hlen).
  destruct (@RangeBrokers_visits reversed_order
              (Store (Some two_brokers) zero_CachedTargets)
              two_brokers (option Broker) (@keep_first Broker) None eq_refl)
    as (_ & Hstop & _).
  split_and!.
  - apply Hall. reflexivity.
  - apply (Hstop [] (broker_with ready_t2) [mkBroker ready_t1 ∅]).
    + vm_compute. reflexivity.
    + reflexivity.
    + reflexivity.
  - exact Hlen.
Defined.

Lemma Send_before_Store_panics_witness :
  @Send slash_format by_type listed_order tt b1 "order" unset_sink = Panicked unset_sink.
Proof.
  apply (@Send_before_Store_panics slash_format by_type listed_order tt b1 "order" unset_sink).
  reflexivity.
Defined.

Lemma Send_classifies_witness :
  (∃ id, @configured_topic slash_format (brokerConfig fresh_sink) b2 id) ∨
  (∃ err,
      @Send slash_format by_type listed_order tt b2 "order" fresh_sink = Returned (Some err) fresh_sink ∧
      (errors_Is err ErrNotFound, errors_Is err ErrIncomplete, errors_Is err ErrNotReady)
        ∈ [(true, false, false); (false, true, false); (false, false, true)]).
Proof.
  apply (@Send_classifies slash_format by_type listed_order tt b2 "order" fresh_sink
           (Some (snapshot ready_t1))).
  reflexivity.
Defined.

Lemma Send_forwards_unfiltered_witness :
  ∃ topic m1 m',
    @getTopicForBroker slash_format by_type tt b1 fresh_sink = Returned (inr topic) m1 ∧
    pubsub.ID topic = pubsub.last_segment "t1" ∧
    (pubsub.slash_free "t1" → pubsub.ID topic = "t1") ∧
    @Send slash_format by_type listed_order tt b1 "invoice" fresh_sink =
      Returned (@publish_Get by_type (pubsub.calls (pubsub m1)) tt topic "invoice") m' ∧
    pubsub.calls (pubsub m') =
      pubsub.calls (pubsub m1) ++ [pubsub.Publish topic "invoice"] ∧
    pubsub.count pubsub.is_Publish (pubsub.calls (pubsub m')) =
      pubsub.count pubsub.is_Publish (pubsub.calls (pubsub fresh_sink)) + 1.
Proof.
  apply (@Send_forwards_unfiltered slash_format by_type listed_order tt b1 "invoice" fresh_sink
           "t1" "invoice").
  - vm_compute. reflexivity.
  - by apply example_configured.
  - reflexivity.
Defined.

(** The target that is interested in orders belongs to [ns/b2]. *)
Lemma example_cross_interest :
  @interested_anywhere by_type tt "order" (Some two_brokers).
Proof.
  exists two_brokers, "ns/b2", (broker_with ready_t2), "orders", only_orders.
  split_and!; [done| |done|done]. vm_compute. reflexivity.
Qed.

Lemma example_cross_configured :
  @configured_topic slash_format (brokerConfig cross_sink) b1 "t1".
Proof.
  exists (Some two_brokers), (mkBroker ready_t1 ∅), (mkQueue "t1" State_READY).
  split_and!; done.
Qed.

Lemma Send_forwards_interesting_witness :
  ∃ topic m1 m',
    @getTopicForBroker slash_format by_type tt b1 cross_sink = Returned (inr topic) m1 ∧
    pubsub.ID topic = pubsub.last_segment "t1" ∧
    (pubsub.slash_free "t1" → pubsub.ID topic = "t1") ∧
    @Send slash_format by_type listed_order tt b1 "order" cross_sink =
      Returned (@publish_Get by_type (pubsub.calls (pubsub m1)) tt topic "order") m' ∧
    pubsub.calls (pubsub m') =
      pubsub.calls (pubsub m1) ++ [pubsub.Publish topic "order"] ∧
    pubsub.count pubsub.is_Publish (pubsub.calls (pubsub m')) =
      pubsub.count pubsub.is_Publish (pubsub.calls (pubsub cross_sink)) + 1.
Proof.
  apply (@Send_forwards_interesting slash_format by_type listed_order tt b1 "order" cross_sink
           (Some two_brokers) "t1" "order").
  - reflexivity.
  - apply example_cross_interest.
  - apply example_cross_configured.
  - reflexivity.
Defined.

Lemma Send_encoding_failure_witness :
  ∃ topic m',
    @Send slash_format failing_encoder listed_order tt b1 "order" unencodable_sink =
      Returned (Some (externalError "cannot encode")) m' ∧
    @getTopicForBroker slash_format failing_encoder tt b1 unencodable_sink =
      Returned (inr topic) m' ∧
    topics m' !! b1 = Some topic ∧
    pubsub.count pubsub.is_Publish (pubsub.calls (pubsub m')) =
      pubsub.count pubsub.is_Publish (pubsub.calls (pubsub unencodable_sink)).
Proof.
  apply (@Send_encoding_failure slash_format failing_encoder listed_order tt b1 "order"
           unencodable_sink "t1" (externalError "cannot encode")).
  - by apply example_configured.
  - left. vm_compute. reflexivity.
  - reflexivity.
Defined.

Lemma Send_files_configured_topic_witness :
  ∃ r m' h,
    @Send slash_format by_type listed_order tt b1 "order" drifted_sink = Returned r m' ∧
    topics m' !! b1 = Some h ∧
    pubsub.ID h = "t2" ∧
    ∀ ctx', @getTopicForBroker slash_format by_type ctx' b1 m' = Returned (inr h) m'.
Proof.
  apply (@Send_files_configured_topic slash_format by_type listed_order tt b1 "order"
           drifted_sink "t2").
  - reflexivity.
  - by apply example_configured.
Defined.

Lemma run_spares_other_brokers_witness :
  topics (final_sink (@run slash_format by_type listed_order
                           [@DoSend by_type tt b2 "order";
                            @DoStore by_type (Some two_brokers);
                            @DoSend by_type tt b2 "order"] drifted_sink)) !! b1
    = topics drifted_sink !! b1 ∧
  ∀ hk, wf drifted_sink → topics drifted_sink !! b1 = Some hk →
        ∃ new,
          pubsub.calls (pubsub (final_sink
            (@run slash_format by_type listed_order
                  [@DoSend by_type tt b2 "order";
                   @DoStore by_type (Some two_brokers);
                   @DoSend by_type tt b2 "order"] drifted_sink))) =
            pubsub.calls (pubsub drifted_sink) ++ new ∧
          Forall (λ c, ¬ pubsub.touches hk c) new.
Proof.
  apply (@run_spares_other_brokers slash_format by_type listed_order b1
           [@DoSend by_type tt b2 "order";
            @DoStore by_type (Some two_brokers);
            @DoSend by_type tt b2 "order"] drifted_sink).
  repeat apply Forall_cons_2; try apply Forall_nil_2; simpl; try exact I; discriminate.
Defined.

Lemma reachable_no_use_after_stop_witness :
  Forall (λ c : pubsub.call (@Message by_type), ¬ pubsub.touches t1 c)
         [pubsub.NewTopic t2; pubsub.Publish t2 "order"].
Proof.
  apply (@reachable_no_use_after_stop slash_format by_type listed_order (Getenv "false")
           (stored ready_t1) 0 reconfigure_steps
           [pubsub.NewTopic t1; pubsub.Publish t1 "order"] t1
           [pubsub.NewTopic t2; pubsub.Publish t2 "order"]).
  vm_compute. reflexivity.
Defined.

(** ** The order of map traversals does not matter to the sink *)

Section OrderFree.

Context `{KF : KeyFormat} `{X : Collaborators}.

Variables MR1 MR2 : MapRange.

Lemma hasTrigger_order_free (ctx : Ctx) (event : Event) (m : multiTopicDecoupleSink) :
  @hasTrigger X MR1 ctx event m = @hasTrigger X MR2 ctx event m.
Proof.
  destruct (Value (brokerConfig m)) as [|t] eqn:Hv.
  - unfold hasTrigger, on_brokerConfig, RangeAllTargets, Load, atomic_Load.
    by rewrite Hv.
  - destruct (@hasTrigger_stored X MR1 ctx event m t Hv) as (r1 & -> & Hiff1).
    destruct (@hasTrigger_stored X MR2 ctx event m t Hv) as (r2 & -> & Hiff2).
    f_equal. destruct r1, r2; try done.
    + symmetry. by apply Hiff2, Hiff1.
    + by apply Hiff1, Hiff2.
Qed.

Lemma Send_order_free_step (ctx : Ctx) (broker : BrokerKey) (event : Event)
      (m : multiTopicDecoupleSink) :
  @Send KF X MR1 ctx broker event m = @Send KF X MR2 ctx broker event m.
Proof.
  unfold Send, bind.
  destruct (getTopicForBroker ctx broker m) as [[err|topic] m1|m1]; [done| |done].
  unfold read_enableEventFiltering.
  destruct (enableEventFiltering m1); [|done].
  by rewrite hasTrigger_order_free.
Qed.

(** X17.  The outcome of [Send], and of every run of [Store]s and [Send]s,
    is the same whatever order the runtime chooses for the traversals of
    the snapshot's maps: the interest check only asks whether some target
    passes the filter. *)
Theorem run_order_free (steps : list step) (m : multiTopicDecoupleSink) :
  (∀ ctx broker event m0,
      @Send KF X MR1 ctx broker event m0 = @Send KF X MR2 ctx broker event m0) ∧
  @run KF X MR1 steps m = @run KF X MR2 steps m.
Proof.
  split; [apply Send_order_free_step|].
  revert m. induction steps as [|st steps IH]; intros m; [done|].
  destruct st as [t|ctx broker event]; simpl; unfold bind.
  - apply IH.
  - rewrite Send_order_free_step.
    destruct (@Send KF X MR2 ctx broker event m) as [r m1|m1]; [|done].
    by rewrite IH.
Qed.

End OrderFree.

(** ** Handle reuse and drift on the small deployment *)

Lemma example_only_topic st ct :
  @only_topic slash_format b1 "t1" (Store (Some (snapshot (Some (mkQueue "t1" st)))) ct).
Proof.
  split; [by eexists|].
  intros id' (t & b & q & Hv & Hb & Hq & Hid & _).
  injection Hv as <-. unfold broker_in in Hb. simpl in Hb.
  change (@PersistenceString slash_format b1) with "ns/b1" in Hb.
  rewrite lookup_singleton_eq in Hb. injection Hb as <-.
  simpl in Hq. injection Hq as <-. by subst id'.
Qed.

Lemma example_mixed_unchanged :
  @topic_unchanged slash_format by_type b1 "t1" mixed_steps (brokerConfig fresh_sink).
Proof. repeat (split; try apply example_only_topic). Qed.

Lemma Send_creates_one_topic_witness :
  ∃ rs m',
    @run slash_format by_type listed_order mixed_steps fresh_sink = Returned rs m' ∧
    (¬ @resolved_in slash_format by_type b1 "t1" mixed_steps (brokerConfig fresh_sink) →
     @calls_of slash_format by_type listed_order b1 mixed_steps fresh_sink = [] ∧
     topics m' !! b1 = None) ∧
    (@resolved_in slash_format by_type b1 "t1" mixed_steps (brokerConfig fresh_sink) →
     ∃ h pubs,
       @calls_of slash_format by_type listed_order b1 mixed_steps fresh_sink =
         pubsub.NewTopic h :: pubs ∧
       Forall (publishes_to h) pubs ∧
       pubsub.topic_id h = "t1" ∧
       topics m' !! b1 = Some h ∧
       pubsub.count pubsub.is_NewTopic
         (@calls_of slash_format by_type listed_order b1 mixed_steps fresh_sink) = 1 ∧
       pubsub.count pubsub.is_Stop
         (@calls_of slash_format by_type listed_order b1 mixed_steps fresh_sink) = 0).
Proof.
  apply (@Send_creates_one_topic slash_format by_type listed_order b1 "t1" mixed_steps
           fresh_sink).
  - reflexivity.
  - apply example_mixed_unchanged.
  - reflexivity.
Defined.

(** What the run of the witness does: one handle, three publishes on it,
    and no call at all for the [Send] to [ns/b2] and for the [Send] that
    finds the queue not READY. *)
Example mixed_steps_calls :
  pubsub.calls (pubsub (final_sink
    (@run slash_format by_type listed_order mixed_steps fresh_sink))) =
  [pubsub.NewTopic t1; pubsub.Publish t1 "order"; pubsub.Publish t1 "invoice"] ∧
  @calls_of slash_format by_type listed_order b1 mixed_steps fresh_sink =
  [pubsub.NewTopic t1; pubsub.Publish t1 "order"; pubsub.Publish t1 "invoice"].
Proof. split; vm_compute; reflexivity. Qed.

Lemma example_slash_only_topic ct :
  @only_topic slash_format b1 "a/b" (Store (Some (snapshot slash_queue)) ct).
Proof.
  split; [by eexists|].
  intros id' (t & b & q & Hv & Hb & Hq & Hid & _).
  injection Hv as <-. unfold broker_in in Hb. simpl in Hb.
  change (@PersistenceString slash_format b1) with "ns/b1" in Hb.
  rewrite lookup_singleton_eq in Hb. injection Hb as <-.
  simpl in Hq. injection Hq as <-. by subst id'.
Qed.

Lemma example_slash_configured ct :
  @configured_topic slash_format (Store (Some (snapshot slash_queue)) ct) b1 "a/b".
Proof.
  exists (Some (snapshot slash_queue)), (broker_with slash_queue), (mkQueue "a/b" State_READY).
  split_and!; done.
Qed.

(** C5 (as first stated) does not hold for an identifier with a ['/'] in
    it: the identifier of [ns/b1] stays ["a/b"], and the second [Send] stops
    the handle the first one created and creates another. *)
Lemma Send_recreates_slash_topic :
  ¬ (∀ (KF : KeyFormat) (X : Collaborators) (MR : MapRange) (broker : BrokerKey)
       (id : string) (steps : list step) (m : multiTopicDecoupleSink),
        topic_unchanged broker id steps (brokerConfig m) →
        topics m !! broker = None →
        resolved_in broker id steps (brokerConfig m) →
        pubsub.count pubsub.is_NewTopic (calls_of broker steps m) = 1 ∧
        pubsub.count pubsub.is_Stop (calls_of broker steps m) = 0).
Proof.
  intros Hclaim.
  destruct (Hclaim slash_format by_type listed_order b1 "a/b" two_sends slash_sink)
    as [Hnew _].
  - repeat (split; try apply example_slash_only_topic).
  - reflexivity.
  - left. split; [done|]. apply example_slash_configured.
  - vm_compute in Hnew. discriminate.
Qed.

(** The calls of the two [Send]s of the counterexample. *)
Example two_sends_slash_calls :
  pubsub.calls (pubsub (final_sink
    (@run slash_format by_type listed_order two_sends slash_sink))) =
  [pubsub.NewTopic (pubsub.mkTopic 0 "a/b");
   pubsub.Publish (pubsub.mkTopic 0 "a/b") "order";
   pubsub.Stop (pubsub.mkTopic 0 "a/b");
   pubsub.NewTopic (pubsub.mkTopic 1 "a/b");
   pubsub.Publish (pubsub.mkTopic 1 "a/b") "order"].
Proof. vm_compute. reflexivity. Qed.

(** C6 (as first stated) does not hold without its two provisos.  When
    the identifier changes to one whose queue is not READY, [Send] returns
    [ErrNotReady] and the stale handle stays filed, unstopped.  When the
    handle was made for [x/t2] and the identifier changes to [t2], the
    handle's [ID] is [t2] already: [Send] takes it for current and
    publishes on it. *)
Lemma Send_keeps_stale_topic :
  ¬ (∀ (KF : KeyFormat) (X : Collaborators) (MR : MapRange) (ctx : Ctx)
       (broker : BrokerKey) (event : Event) (m : multiTopicDecoupleSink)
       (t : option TargetsConfig) (b : Broker) (q : Queue) (h_old : pubsub.Topic),
        wf m →
        Value (brokerConfig m) = iface_TargetsConfig t →
        broker_in t broker = Some b →
        DecoupleQueue b = Some q →
        topics m !! broker = Some h_old →
        Queue_Topic q ≠ pubsub.topic_id h_old →
        ∃ r m', Send ctx broker event m = Returned r m' ∧
                pubsub.Stop h_old ∈ pubsub.calls (pubsub m') ∧
                topics m' !! broker ≠ Some h_old) ∧
  ¬ (∀ (KF : KeyFormat) (X : Collaborators) (MR : MapRange) (ctx : Ctx)
       (broker : BrokerKey) (event : Event) (m : multiTopicDecoupleSink)
       (id : string) (h_old : pubsub.Topic),
        wf m →
        configured_topic (brokerConfig m) broker id →
        topics m !! broker = Some h_old →
        id ≠ pubsub.topic_id h_old →
        ∃ r m', Send ctx broker event m = Returned r m' ∧
                pubsub.Stop h_old ∈ pubsub.calls (pubsub m') ∧
                topics m' !! broker ≠ Some h_old).
Proof.
  split; intros Hclaim.
  - destruct (Hclaim slash_format by_type listed_order tt b1 "order" stale_not_ready_sink
                (Some (snapshot (Some (mkQueue "t2" State_CREATING))))
                (broker_with (Some (mkQueue "t2" State_CREATING)))
                (mkQueue "t2" State_CREATING) t1)
      as (r & m' & HSend & _ & Hgone).
    + apply example_wf.
    + reflexivity.
    + vm_compute. reflexivity.
    + reflexivity.
    + vm_compute. reflexivity.
    + discriminate.
    + vm_compute in HSend. injection HSend as <- <-. apply Hgone.
      vm_compute. reflexivity.
  - destruct (Hclaim slash_format by_type listed_order tt b1 "order" slash_drift_sink
                "t2" (pubsub.mkTopic 0 "x/t2"))
      as (r & m' & HSend & _ & Hgone).
    + split; simpl.
      * intros k h [_ <-]%lookup_singleton_Some. simpl. lia.
      * intros k1 k2 h1 h2 [<- _]%lookup_singleton_Some [<- _]%lookup_singleton_Some _.
        reflexivity.
    + by apply example_configured.
    + vm_compute. reflexivity.
    + discriminate.
    + vm_compute in HSend. injection HSend as <- <-. apply Hgone.
      vm_compute. reflexivity.
Qed.

